(** * Verification of the board core of sudoku-solver-lib (board.rs)

    Shallow embedding of [Board] and [BoardData] from
    src/sudoku-solver-lib/src/board.rs.  A Rust panic (out-of-range
    indexing, a failed [assert!]) is modelled as [None] in the option
    monad; every mutating operation of [Board] is a function from the
    per-cell grid to an optional [(result, new grid)] pair.

    The supporting modules value_mask.rs, cell_utility.rs,
    candidate_index.rs, house.rs, constraint.rs, logic_result.rs and
    math.rs are not part of the sources at hand: their definitions below
    are modelled from the spec and marked as such. *)

From stdpp Require Import base list gmap sorting strings pretty.
From Stdlib Require Import ZArith.

(* ------------------------------------------------------------------ *)
(** ** ValueMask *)

(** Modelled from the spec: value_mask.rs is missing.  "bitset of width =
    puzzle size, plus one solved bit/flag"; value [v] (in 1..=size) is
    bit [v - 1]. *)
Record ValueMask := mkValueMask { vm_bits : Z; vm_solved : bool }.

#[global] Instance ValueMask_eq_dec : EqDecision ValueMask.
Proof. solve_decision. Defined.

(** Modelled from the spec: the single bit of value [v]. *)
Definition value_bit (v : nat) : Z := Z.shiftl 1 (Z.of_nat v - 1).

(** Modelled from the spec: [ValueMask::from_all_values(size)]. *)
Definition from_all_values (size : nat) : ValueMask :=
  mkValueMask (Z.shiftl 1 (Z.of_nat size) - 1) false.

(** Modelled from the spec: [ValueMask::has]. *)
Definition has (m : ValueMask) (v : nat) : bool :=
  Z.testbit (vm_bits m) (Z.of_nat v - 1).

(** Modelled from the spec: [ValueMask::without] clears one value bit. *)
Definition without (m : ValueMask) (v : nat) : ValueMask :=
  mkValueMask (Z.land (vm_bits m) (Z.lnot (value_bit v))) (vm_solved m).

(** Modelled from the spec: [ValueMask::with_only] keeps just one value. *)
Definition with_only (m : ValueMask) (v : nat) : ValueMask :=
  mkValueMask (value_bit v) (vm_solved m).

(** Modelled from the spec: [ValueMask::solved] sets the solved flag. *)
Definition solved (m : ValueMask) : ValueMask :=
  mkValueMask (vm_bits m) true.

(** Modelled from the spec: [ValueMask::is_solved]. *)
Definition is_solved (m : ValueMask) : bool := vm_solved m.

(** Modelled from the spec: [ValueMask::is_empty]: no value bit left. *)
Definition is_empty (m : ValueMask) : bool := Z.eqb (vm_bits m) 0.

(* ------------------------------------------------------------------ *)
(** ** CellUtility, CellIndex, CandidateIndex *)

(** Modelled from the spec: cells are row-major, [CellUtility::cell]. *)
Definition cu_cell (size row col : nat) : nat := row * size + col.

(** Modelled from the spec: [CellUtility::candidate]; a candidate is the
    pair (cell, value in 1..=size), numbered densely. *)
Definition cu_candidate (size cell val : nat) : nat := cell * size + (val - 1).

(** Modelled from the spec: [CandidateIndex::cell_index_and_value]. *)
Definition cell_index_and_value (size cand : nat) : nat * nat :=
  (cand / size, cand mod size + 1).

(** Modelled from the spec: [CellUtility::all_cells]. *)
Definition all_cells (size : nat) : list nat := seq 0 (size * size).

(** Modelled from the spec: [CellUtility::all_candidates]. *)
Definition all_candidates (size : nat) : list nat := seq 0 (size * (size * size)).

(** Every unordered pair of positions of a cell list, in list order. *)
Fixpoint cell_pairs (cells : list nat) : list (nat * nat) :=
  match cells with
  | [] => []
  | c :: rest => map (fun d => (c, d)) rest ++ cell_pairs rest
  end.

(** Modelled from the spec: [CellUtility::candidate_pairs(cells)], the
    same-value candidate pairs of every two cells of a house. *)
Definition candidate_pairs (size : nat) (cells : list nat) : list (nat * nat) :=
  flat_map (fun '(c0, c1) =>
              map (fun v => (cu_candidate size c0 v, cu_candidate size c1 v))
                  (seq 1 size))
           (cell_pairs cells).

(* ------------------------------------------------------------------ *)
(** ** House *)

(** Modelled from the spec: house.rs is missing.  A house is "a named
    ordered set of cells": its cells carry no repetition. *)
Record House := mkHouse {
  house_name : string;
  house_cells : list nat;
  house_cells_nodup : NoDup house_cells
}.

Definition house_new_nodup (cells : list nat) : NoDup (merge_sort Nat.le (remove_dups cells)).
Proof.
  rewrite (merge_sort_Permutation Nat.le).
  apply NoDup_remove_dups.
Qed.

(** Modelled from the spec: [House::new(name, cells)].  Houses are compared
    by their cell set, so the cells are stored sorted and without
    repetition. *)
Definition house_new (name : string) (cells : list nat) : House :=
  mkHouse name (merge_sort Nat.le (remove_dups cells)) (house_new_nodup cells).

(** Modelled from the spec: [math::default_regions(size)], the box
    partition.  The spec fixes it only for perfect squares (sqrt x sqrt
    blocks); the same formula is used for every size here. *)
Definition default_regions (size : nat) : list nat :=
  let w := Nat.sqrt size in
  map (fun i => (i / size / w) * w + (i mod size) / w) (all_cells size).

(* ------------------------------------------------------------------ *)
(** ** Constraint *)

(** Modelled from the spec: the outcome of [Constraint::enforce]; only the
    distinction Invalid / not Invalid is used by the board. *)
Inductive LogicResult := LRInvalid | LROther.

(** Modelled from the spec: the [Constraint] trait as a record of its three
    operations.  [enforce] receives the board's per-cell grid (its only
    mutable part) and returns the grid it leaves behind. *)
Record Constraint := mkConstraint {
  get_houses : nat -> list House;
  get_weak_links : nat -> list (nat * nat);
  enforce : list ValueMask -> nat -> nat -> LogicResult * list ValueMask
}.

(* ------------------------------------------------------------------ *)
(** ** BoardData and Board (board.rs) *)

(** [BTreeSet<CandidateIndex>] as a finite set; its iteration order is
    ascending. *)
Definition btree_iter (s : gset nat) : list nat := merge_sort Nat.le (elements s).

Record BoardData := mkBoardData {
  size : nat;
  num_cells : nat;
  num_candidates : nat;
  all_values_mask : ValueMask;
  houses : list House;
  houses_by_cell : list (list House);
  weak_links : list (gset nat);
  total_weak_links : nat;
  constraints : list Constraint
}.

Record Board := mkBoard { board : list ValueMask; data : BoardData }.

(** Replace the weak-link table and its counter. *)
Definition set_links (d : BoardData) (wl : list (gset nat)) (t : nat) : BoardData :=
  mkBoardData (size d) (num_cells d) (num_candidates d) (all_values_mask d)
    (houses d) (houses_by_cell d) wl t (constraints d).

(** *** [BoardData::create_houses] *)

(** The region assignment the code goes on with: the supplied one when its
    length is [num_cells], the default partition otherwise. *)
Definition regions_used (size : nat) (regions : list nat) : list nat :=
  if Nat.eqb (length regions) (size * size) then regions else default_regions size.

Definition row_houses (size : nat) : list House :=
  map (fun row => house_new ("Row " +:+ pretty (row + 1))
                    (map (fun col => cu_cell size row col) (seq 0 size)))
      (seq 0 size).

Definition column_houses (size : nat) : list House :=
  map (fun col => house_new ("Column " +:+ pretty (col + 1))
                    (map (fun row => cu_cell size row col) (seq 0 size)))
      (seq 0 size).

(** [house_for_region]: the cells of every region id, in cell order.  The
    Rust [HashMap] has no fixed iteration order; the map's own order stands
    for it. *)
Definition house_for_region (size : nat) (regions : list nat) : gmap nat (list nat) :=
  fold_left (fun m cell =>
               let region := default 0 (regions !! cell) in
               <[region := default [] (m !! region) ++ [cell]]> m)
            (all_cells size) ∅.

(** [!houses.iter().any(|h| h.cells() == house.cells())] guarding a push. *)
Definition push_new_house (hs : list House) (h : House) : list House :=
  if existsb (fun h' => bool_decide (house_cells h' = house_cells h)) hs
  then hs else hs ++ [h].

Definition add_region_houses (size : nat) (regions : list nat) (hs : list House)
  : list House :=
  fold_left (fun hs '(region, cells) =>
               if Nat.eqb (length cells) size
               then push_new_house hs (house_new ("Region " +:+ pretty (region + 1)) cells)
               else hs)
            (map_to_list (house_for_region size regions)) hs.

Definition add_constraint_houses (size : nat) (cs : list Constraint) (hs : list House)
  : list House :=
  fold_left (fun hs c => fold_left push_new_house (get_houses c size) hs) cs hs.

Definition create_houses (size : nat) (regions : list nat) (cs : list Constraint)
  : list House :=
  let regions := regions_used size regions in
  let hs := row_houses size ++ column_houses size in
  let hs := add_region_houses size regions hs in
  add_constraint_houses size cs hs.

(** *** [BoardData::create_houses_by_cell]; a house cell out of range makes
    [houses_by_cell[cell.index()]] panic. *)
Fixpoint push_house_cells (h : House) (cells : list nat) (hbc : list (list House))
  : option (list (list House)) :=
  match cells with
  | [] => Some hbc
  | c :: cs =>
      l ← hbc !! c;
      push_house_cells h cs (<[c := l ++ [h]]> hbc)
  end.

Fixpoint push_houses (hs : list House) (hbc : list (list House))
  : option (list (list House)) :=
  match hs with
  | [] => Some hbc
  | h :: hs' => hbc' ← push_house_cells h (house_cells h) hbc; push_houses hs' hbc'
  end.

Definition create_houses_by_cell (size : nat) (hs : list House)
  : option (list (list House)) :=
  push_houses hs (replicate (size * size) []).

(** *** [BoardData::new] *)
Definition board_data_new (size : nat) (regions : list nat) (cs : list Constraint)
  : option BoardData :=
  let all_values_mask := from_all_values size in
  let num_cells := size * size in
  let num_candidates := size * num_cells in
  let hs := create_houses size regions cs in
  hbc ← create_houses_by_cell size hs;
  Some (mkBoardData size num_cells num_candidates all_values_mask hs hbc
          (replicate num_candidates ∅) 0 cs).

(** *** [BoardData::add_weak_link]: [BTreeSet::insert] returns whether the
    element was new; both lookups panic out of range. *)
Definition bset_insert (x : nat) (s : gset nat) : bool * gset nat :=
  (bool_decide (x ∉ s), {[x]} ∪ s).

Definition add_weak_link (d : BoardData) (c1 c2 : nat) : option BoardData :=
  s1 ← weak_links d !! c1;
  let '(new1, s1') := bset_insert c2 s1 in
  let wl := <[c1 := s1']> (weak_links d) in
  let t := if new1 then S (total_weak_links d) else total_weak_links d in
  s2 ← wl !! c2;
  let '(new2, s2') := bset_insert c1 s2 in
  let wl := <[c2 := s2']> wl in
  let t := if new2 then S t else t in
  Some (set_links d wl t).

Fixpoint add_weak_links (d : BoardData) (pairs : list (nat * nat)) : option BoardData :=
  match pairs with
  | [] => Some d
  | (a, b) :: ps => d' ← add_weak_link d a b; add_weak_links d' ps
  end.

(** *** [BoardData::init_sudoku_weak_links] *)
Fixpoint add_house_links (size : nat) (d : BoardData) (hs : list House) : option BoardData :=
  match hs with
  | [] => Some d
  | h :: hs' => d' ← add_weak_links d (candidate_pairs size (house_cells h));
                add_house_links size d' hs'
  end.

Definition sudoku_links_of (d : BoardData) (candidate1 : nat) : option BoardData :=
  let size := size d in
  let '(cell1, val1) := cell_index_and_value size candidate1 in
  d' ← add_weak_links d (map (fun val2 => (candidate1, cu_candidate size cell1 val2))
                             (seq (val1 + 1) (size - val1)));
  hs ← houses_by_cell d' !! cell1;
  add_house_links size d' hs.

Fixpoint sudoku_links_loop (d : BoardData) (cands : list nat) : option BoardData :=
  match cands with
  | [] => Some d
  | c :: cs => d' ← sudoku_links_of d c; sudoku_links_loop d' cs
  end.

Definition init_sudoku_weak_links (d : BoardData) : option BoardData :=
  sudoku_links_loop d (all_candidates (size d)).

(** *** [BoardData::init_constraint_weak_links] *)
Fixpoint constraint_pairs_loop (d : BoardData) (pairs : list (nat * nat)) (elims : list nat)
  : option (BoardData * list nat) :=
  match pairs with
  | [] => Some (d, elims)
  | (c0, c1) :: ps =>
      if decide (c0 ≠ c1)
      then d' ← add_weak_link d c0 c1; constraint_pairs_loop d' ps elims
      else constraint_pairs_loop d ps (elims ++ [c0])
  end.

Fixpoint constraint_links_loop (d : BoardData) (cs : list Constraint) (elims : list nat)
  : option (BoardData * list nat) :=
  match cs with
  | [] => Some (d, elims)
  | c :: cs' =>
      '(d', elims') ← constraint_pairs_loop d (get_weak_links c (size d)) elims;
      constraint_links_loop d' cs' elims'
  end.

Definition init_constraint_weak_links (d : BoardData) : option (BoardData * list nat) :=
  constraint_links_loop d (constraints d) [].

Definition init_weak_links (d : BoardData) : option (BoardData * list nat) :=
  d' ← init_sudoku_weak_links d; init_constraint_weak_links d'.

(** *** The mutation surface of [Board]; [size] is the board's size, which
    [CandidateIndex::cell_index_and_value] needs. *)

(** [Board::cell] and [Board::has_candidate]. *)
Definition cell (g : list ValueMask) (c : nat) : option ValueMask := g !! c.

Definition has_candidate (size : nat) (g : list ValueMask) (cand : nat) : option bool :=
  let '(c, v) := cell_index_and_value size cand in
  m ← cell g c; Some (has m v).

Definition clear_value (g : list ValueMask) (c val : nat) : option (bool * list ValueMask) :=
  m ← g !! c;
  let m' := without m val in
  Some (negb (is_empty m'), <[c := m']> g).

Definition clear_candidate (size : nat) (g : list ValueMask) (cand : nat)
  : option (bool * list ValueMask) :=
  let '(c, v) := cell_index_and_value size cand in
  clear_value g c v.

Fixpoint clear_candidates_loop (size : nat) (cands : list nat) (valid : bool)
  (g : list ValueMask) : option (bool * list ValueMask) :=
  match cands with
  | [] => Some (valid, g)
  | cand :: cs =>
      match clear_candidate size g cand with
      | None => None
      | Some (ok, g') => clear_candidates_loop size cs (if ok then valid else false) g'
      end
  end.

Definition clear_candidates (size : nat) (g : list ValueMask) (cands : list nat)
  : option (bool * list ValueMask) :=
  clear_candidates_loop size cands true g.

(** The weak-link loop of [set_solved]: the first failed clear returns. *)
Fixpoint apply_weak_links (size : nat) (elims : list nat) (g : list ValueMask)
  : option (bool * list ValueMask) :=
  match elims with
  | [] => Some (true, g)
  | e :: es =>
      match clear_candidate size g e with
      | None => None
      | Some (ok, g') => if ok then apply_weak_links size es g' else Some (false, g')
      end
  end.

(** The constraint loop of [set_solved]: the first [Invalid] returns. *)
Fixpoint enforce_constraints (cs : list Constraint) (c val : nat) (g : list ValueMask)
  : bool * list ValueMask :=
  match cs with
  | [] => (true, g)
  | k :: ks =>
      let '(r, g') := enforce k g c val in
      match r with
      | LRInvalid => (false, g')
      | LROther => enforce_constraints ks c val g'
      end
  end.

Definition set_solved (d : BoardData) (g : list ValueMask) (c val : nat)
  : option (bool * list ValueMask) :=
  m ← cell g c;
  if negb (has m val) then Some (false, g) else
  if is_solved m then Some (false, g) else
  let g1 := <[c := solved (with_only m val)]> g in
  let set_candidate_index := cu_candidate (size d) c val in
  links ← weak_links d !! set_candidate_index;
  match apply_weak_links (size d) (btree_iter links) g1 with
  | None => None
  | Some (ok, g2) =>
      if ok then Some (enforce_constraints (constraints d) c val g2)
      else Some (false, g2)
  end.

(** [Board::set_mask]: the [assert!] panics on a solved-shaped mask. *)
Definition set_mask (g : list ValueMask) (c : nat) (mask : ValueMask)
  : option (bool * list ValueMask) :=
  if is_solved mask then None else
  if is_empty mask then Some (false, g) else
  _ ← (g !! c : option ValueMask);
  Some (true, <[c := mask]> g).

(** *** [Board::new]: the result of [clear_candidates] is dropped. *)
Definition board_new (size : nat) (regions : list nat) (cs : list Constraint)
  : option Board :=
  d ← board_data_new size regions cs;
  '(d', elims) ← init_weak_links d;
  let g := replicate (num_cells d') (all_values_mask d') in
  '(_, g') ← clear_candidates size g elims;
  Some (mkBoard g' d').


(* ------------------------------------------------------------------ *)
(** ** Statement-side definitions, following the spec's wording *)

(** §4.3 [clear_candidates]: "applies [clear_candidate] to each entry in
    order"; for every entry it records whether that clear left the cell's
    mask empty. *)
Fixpoint clear_each (sz : nat) (g : list ValueMask) (L : list nat)
  : option (list bool * list ValueMask) :=
  match L with
  | [] => Some ([], g)
  | x :: xs =>
      let '(c, v) := cell_index_and_value sz x in
      match g !! c with
      | None => None
      | Some m =>
          let m' := without m v in
          match clear_each sz (<[c := m']> g) xs with
          | None => None
          | Some (empties, g2) => Some (is_empty m' :: empties, g2)
          end
      end
  end.

(** The number of elements of a weak-link set ([BTreeSet::len]). *)
Definition card (s : gset nat) : nat := stdpp.base.size s.

(** §3: [b] belongs to the weak-link set of [a]. *)
Definition linked (wl : list (gset nat)) (a b : nat) : Prop :=
  ∃ s, wl !! a = Some s ∧ b ∈ s.

(** §3: the sum of the sizes of all per-candidate weak-link sets. *)
Definition link_count (wl : list (gset nat)) : nat := sum_list (map card wl).

(** One insertion of a link between two distinct candidates, the only way
    the construction changes a [BoardData]. *)
Definition link_step (d d' : BoardData) : Prop :=
  ∃ a b, a ≠ b ∧ add_weak_link d a b = Some d'.

(** The pairs every constraint supplies, in constraint order. *)
Definition constraint_pairs (sz : nat) (cs : list Constraint) : list (nat * nat) :=
  concat (map (λ k, get_weak_links k sz) cs).

(** The invariant of the weak-link table along the construction. *)
Definition links_inv (d : BoardData) : Prop :=
  (∀ a b, linked (weak_links d) a b -> linked (weak_links d) b a) ∧
  (∀ a, ¬ linked (weak_links d) a a) ∧
  total_weak_links d = link_count (weak_links d).

(** A value [v] absent from cell [c] of grid [g]. *)
Definition absent (g : list ValueMask) (c v : nat) : Prop :=
  ∃ m, g !! c = Some m ∧ has m v = false.

(** The eliminations [set_solved] carries out in its weak-link loop: every
    linked candidate up to and including the first clear that fails. *)
Fixpoint performed_clears (sz : nat) (elims : list nat) (g : list ValueMask) : list nat :=
  match elims with
  | [] => []
  | e :: es =>
      match clear_candidate sz g e with
      | None => []
      | Some (ok, g') => e :: (if ok then performed_clears sz es g' else [])
      end
  end.

(** A constraint whose [enforce] leaves the solved cell alone and never
    gives a cleared value back to any cell. *)
Definition enforce_keeps (k : Constraint) : Prop :=
  ∀ g c v, (enforce k g c v).2 !! c = g !! c ∧
           (∀ i w, absent g i w -> absent (enforce k g c v).2 i w).

(** §4.1 step 2: an assignment that covers every cell exactly once with
    [size] cells per region. *)
Definition regions_partition (sz : nat) (regions : list nat) : bool :=
  Nat.eqb (length regions) (sz * sz) &&
  forallb (λ r, Nat.eqb (count_occ Nat.eq_dec regions r) sz) regions.

(** §8: the ten candidates the spec lists for (row 0, col 0, value 1) at
    size 4. *)
Definition size4_r0c0_v1_links : gset nat :=
  {[ cu_candidate 4 (cu_cell 4 0 0) 2; cu_candidate 4 (cu_cell 4 0 0) 3;
     cu_candidate 4 (cu_cell 4 0 0) 4;
     cu_candidate 4 (cu_cell 4 0 1) 1; cu_candidate 4 (cu_cell 4 0 2) 1;
     cu_candidate 4 (cu_cell 4 0 3) 1;
     cu_candidate 4 (cu_cell 4 1 0) 1; cu_candidate 4 (cu_cell 4 2 0) 1;
     cu_candidate 4 (cu_cell 4 3 0) 1;
     cu_candidate 4 (cu_cell 4 1 1) 1 ]}.

(** A constraint whose [enforce] clears the value just set, through the
    public [clear_value], and reports [Invalid]. *)
Definition clearing_constraint : Constraint :=
  mkConstraint (λ _, []) (λ _, [])
    (λ g c v, (LRInvalid, match clear_value g c v with Some (_, g') => g' | None => g end)).

(** A constraint that rules out every value of cell 0 of a size-4 board
    through self-pairs. *)
Definition cell0_eliminating_constraint : Constraint :=
  mkConstraint (λ _, []) (λ _, [(0, 0); (1, 1); (2, 2); (3, 3)])
    (λ g _ _, (LROther, g)).

(* ------------------------------------------------------------------ *)
(** ** Shared [BoardData] behind [Arc]

    [Board] holds its own [Vec<ValueMask>] and an [Arc<BoardData>]: a
    pointer into a heap of [BoardData] values.  The derived [Clone] copies
    the vector and the pointer; [deep_clone] also copies the pointee. *)

Record Store := mkStore {
  arcs : list BoardData;
  boards : list (list ValueMask * nat)
}.

Definition shallow_clone (st : Store) (i : nat) : option (nat * Store) :=
  b ← boards st !! i;
  Some (length (boards st), mkStore (arcs st) (boards st ++ [b])).

Definition deep_clone (st : Store) (i : nat) : option (nat * Store) :=
  match boards st !! i with
  | None => None
  | Some (g, p) =>
      d ← arcs st !! p;
      Some (length (boards st),
            mkStore (arcs st ++ [d]) (boards st ++ [(g, length (arcs st))]))
  end.

Inductive BoardOp :=
  | OpClearValue (c v : nat)
  | OpClearCandidate (x : nat)
  | OpClearCandidates (xs : list nat)
  | OpSetSolved (c v : nat)
  | OpSetMask (c : nat) (m : ValueMask).

Definition apply_op (d : BoardData) (g : list ValueMask) (op : BoardOp)
  : option (bool * list ValueMask) :=
  match op with
  | OpClearValue c v => clear_value g c v
  | OpClearCandidate x => clear_candidate (size d) g x
  | OpClearCandidates xs => clear_candidates (size d) g xs
  | OpSetSolved c v => set_solved d g c v
  | OpSetMask c m => set_mask g c m
  end.

(** A mutating call on board [i]: [&mut self] reaches the board's own
    vector, and [BoardData] only through the shared pointer. *)
Definition run_op (st : Store) (i : nat) (op : BoardOp) : option (bool * Store) :=
  match boards st !! i with
  | None => None
  | Some (g, p) =>
      d ← arcs st !! p;
      match apply_op d g op with
      | None => None
      | Some (r, g') => Some (r, mkStore (arcs st) (<[i := (g', p)]> (boards st)))
      end
  end.

Fixpoint run_ops (st : Store) (i : nat) (ops : list BoardOp) : option (list bool * Store) :=
  match ops with
  | [] => Some ([], st)
  | op :: ops' =>
      match run_op st i op with
      | None => None
      | Some (r, st') =>
          match run_ops st' i ops' with
          | None => None
          | Some (rs, st'') => Some (r :: rs, st'')
          end
      end
  end.

(** Every cell still has a candidate. *)
Definition all_nonempty (g : list ValueMask) : Prop :=
  ∀ i m, g !! i = Some m -> is_empty m = false.

(** The houses [extra] appended after [base]: each has a cell list that no
    house before it has. *)
Definition added_distinct (base extra : list House) : Prop :=
  ∀ k h, extra !! k = Some h ->
    ∀ h', In h' (base ++ take k extra) -> house_cells h' ≠ house_cells h.

(** A house list built from [base] by appending such houses, each of them
    satisfying [src]. *)
Definition houses_inv (base : list House) (src : House -> Prop) (hs : list House) : Prop :=
  ∃ extra, hs = base ++ extra ∧ added_distinct base extra ∧ ∀ h, In h extra -> src h.

(** What processing one candidate links, in the table it leaves. *)
Definition sudoku_links_done (sz : nat) (hbc : list (list House)) (wl : list (gset nat))
  (x : nat) : Prop :=
  (∀ v2, x mod sz + 1 < v2 <= sz ->
     linked wl x (cu_candidate sz (x / sz) v2) ∧ linked wl (cu_candidate sz (x / sz) v2) x) ∧
  ∀ hs h p, hbc !! (x / sz) = Some hs -> In h hs -> In p (candidate_pairs sz (house_cells h)) ->
    linked wl p.1 p.2 ∧ linked wl p.2 p.1.


(* ------------------------------------------------------------------ *)
(** ** Masks and the clearing operations *)
Lemma value_bit_testbit (v : nat) (n : Z) :
  (0 <= n)%Z -> Z.testbit (value_bit v) n = (Z.of_nat v - 1 =? n)%Z && negb (Nat.eqb v 0).
Proof.
  intros Hn. unfold value_bit. rewrite Z.shiftl_1_l. destruct v as [|v].
  - simpl. rewrite Z.pow_neg_r by lia. rewrite Z.bits_0, andb_false_r. done.
  - rewrite Z.pow2_bits_eqb by lia. simpl. by rewrite andb_true_r.
Qed.
Lemma has_without (m : ValueMask) (v w : nat) :
  has (without m v) w = has m w && negb (Nat.eqb v w).
Proof.
  unfold has, without; simpl. destruct w as [|w].
  - simpl. done.
  - rewrite Z.land_spec, Z.lnot_spec, value_bit_testbit by lia.
    f_equal. destruct v as [|v].
    + rewrite Nat.eqb_refl, andb_false_r. done.
    + change (S v =? 0) with false. rewrite andb_true_r.
      destruct (Z.eqb_spec (Z.of_nat (S v) - 1) (Z.of_nat (S w) - 1));
        destruct (Nat.eqb_spec (S v) (S w)); simpl; done || lia.
Qed.


Lemma has_candidate_absent (sz : nat) (g : list ValueMask) (x : nat) :
  has_candidate sz g x = Some false ↔ absent g (x / sz) (x mod sz + 1).
Proof.
  unfold has_candidate, cell_index_and_value, cell, absent. simpl.
  destruct (g !! (x / sz)); simpl; split.
  - intros [= H]. eauto.
  - intros (m' & [= <-] & H). by rewrite H.
  - done.
  - intros (? & ? & _). done.
Qed.

Lemma clear_value_spec (g : list ValueMask) (c w : nat) (b : bool) (g' : list ValueMask) :
  clear_value g c w = Some (b, g') ->
  ∃ m, g !! c = Some m ∧ g' = <[c := without m w]> g ∧ b = negb (is_empty (without m w)).
Proof.
  unfold clear_value. destruct (g !! c) as [m|] eqn:E; simpl; [| done].
  intros [= <- <-]. eauto.
Qed.

Lemma clear_value_absent (g : list ValueMask) (c w : nat) (b : bool) (g' : list ValueMask) :
  clear_value g c w = Some (b, g') ->
  absent g' c w ∧ (∀ c' v, absent g c' v -> absent g' c' v).
Proof.
  intros H. apply clear_value_spec in H as (m & Hm & -> & _). split.
  - exists (without m w). split.
    + apply list_lookup_insert_eq. by eapply lookup_lt_Some.
    + rewrite has_without, Nat.eqb_refl, andb_false_r. done.
  - intros c' v (m' & Hm' & Hv). destruct (decide (c = c')) as [<-|Hne].
    + exists (without m w). split.
      * apply list_lookup_insert_eq. by eapply lookup_lt_Some.
      * rewrite Hm in Hm'. injection Hm' as <-. by rewrite has_without, Hv.
    + exists m'. by rewrite list_lookup_insert_ne.
Qed.

Lemma clear_candidate_absent (sz : nat) (g : list ValueMask) (x : nat) (b : bool)
  (g' : list ValueMask) :
  clear_candidate sz g x = Some (b, g') ->
  has_candidate sz g' x = Some false ∧ (∀ c' v, absent g c' v -> absent g' c' v).
Proof.
  unfold clear_candidate, cell_index_and_value. intros H.
  apply clear_value_absent in H as [H1 H2]. split; [| done].
  by apply has_candidate_absent.
Qed.

Lemma has_candidate_preserved (sz : nat) (g g' : list ValueMask) (x : nat) :
  (∀ c' v, absent g c' v -> absent g' c' v) ->
  has_candidate sz g x = Some false -> has_candidate sz g' x = Some false.
Proof. rewrite !has_candidate_absent. auto. Qed.

Lemma clear_candidates_loop_absent (sz : nat) (L : list nat) (valid : bool)
  (g : list ValueMask) (b : bool) (g' : list ValueMask) :
  clear_candidates_loop sz L valid g = Some (b, g') ->
  (∀ c v, absent g c v -> absent g' c v) ∧
  (∀ x, In x L -> has_candidate sz g' x = Some false).
Proof.
  revert valid g. induction L as [|x xs IH]; intros valid g H; simpl in H.
  - injection H as <- <-. split; [done | intros ? []].
  - destruct (clear_candidate sz g x) as [[ok g1]|] eqn:E; [| done].
    apply clear_candidate_absent in E as [Hx Hpres].
    apply IH in H as [Hpres' Hin]. split.
    + auto.
    + intros y [<-|Hy]; [| auto].
      eapply has_candidate_preserved; [exact Hpres' | exact Hx].
Qed.

Lemma clear_candidates_loop_each (sz : nat) (L : list nat) (valid : bool) (g : list ValueMask) :
  clear_candidates_loop sz L valid g =
  (λ p, (valid && negb (existsb id p.1), p.2)) <$> clear_each sz g L.
Proof.
  revert valid g. induction L as [|x xs IH]; intros valid g; simpl.
  - by rewrite andb_true_r.
  - unfold clear_candidate, clear_value, cell_index_and_value.
    destruct (g !! (x / sz)) as [m|]; simpl; [| done].
    rewrite IH. destruct (clear_each sz _ xs) as [[es g2]|]; simpl; [| done].
    f_equal. f_equal. destruct valid, (is_empty (without m (x mod sz + 1))); done.
Qed.

(** C2: if value [v] is not a candidate of cell [c], or [c] is already
    solved, [set_solved] returns [false] and leaves the grid exactly as it
    was. *)
Theorem set_solved_precondition_no_mutation (d : BoardData) (g : list ValueMask)
  (c v : nat) (m : ValueMask) :
  g !! c = Some m -> has m v = false ∨ is_solved m = true ->
  set_solved d g c v = Some (false, g).
Proof.
  intros Hm Hpre. unfold set_solved, cell. rewrite Hm. simpl.
  destruct Hpre as [-> | ->]; [done |]. by destruct (has m v).
Qed.

(** C4: [clear_candidates] applies [clear_candidate] to every entry of the
    list in order, with no short-circuit.  It returns [false] exactly when
    one of those clears left its cell's mask empty.  Afterwards every listed
    candidate is absent from the grid. *)
Theorem clear_candidates_applies_all (sz : nat) (g : list ValueMask) (L : list nat)
  (b : bool) (g' : list ValueMask) :
  (clear_candidates sz g L = Some (b, g') <->
   ∃ empties, clear_each sz g L = Some (empties, g') ∧ (b = false <-> In true empties)) ∧
  (clear_candidates sz g L = Some (b, g') ->
   ∀ x, In x L -> has_candidate sz g' x = Some false).
Proof.
  split.
  - unfold clear_candidates. rewrite clear_candidates_loop_each.
    destruct (clear_each sz g L) as [[es g2]|]; simpl.
    + split.
      * intros [= <- <-]. exists es. split; [done |].
        rewrite negb_false_iff, existsb_exists. split.
        -- intros (y & Hy & Hid). by destruct y.
        -- eauto.
      * intros (es' & [= <- <-] & Hb). f_equal. f_equal.
        destruct (existsb id es) eqn:E; destruct b; simpl; try done.
        -- apply existsb_exists in E as (y & Hy & Hid). destruct y; [| done].
           assert (true = false) by (apply Hb; done). done.
        -- assert (Ht : In true es) by (apply Hb; done).
           assert (existsb id es = true) by (apply existsb_exists; eauto). congruence.
    + split; [done | intros (? & ? & _); done].
  - intros H. apply clear_candidates_loop_absent in H as [_ H]. exact H.
Qed.

(* ------------------------------------------------------------------ *)
(** ** The weak-link graph *)

Lemma card_insert (x : nat) (s : gset nat) :
  card ({[x]} ∪ s) = (if bool_decide (x ∉ s) then 1 else 0) + card s.
Proof.
  unfold card. case_bool_decide as Hx.
  - rewrite size_union by set_solver. by rewrite size_singleton.
  - assert ({[x]} ∪ s = s) as -> by set_solver. done.
Qed.

Lemma link_count_insert (l : list (gset nat)) (i : nat) (s s' : gset nat) :
  l !! i = Some s -> link_count (<[i:=s']> l) + card s = link_count l + card s'.
Proof.
  unfold link_count. revert i. induction l as [|y l IH]; intros i Hi; [done |].
  destruct i as [|i]; simpl in *.
  - injection Hi as ->. lia.
  - specialize (IH i Hi). lia.
Qed.

Lemma linked_insert (wl : list (gset nat)) (i x : nat) (s : gset nat) (a b : nat) :
  wl !! i = Some s ->
  linked (<[i := {[x]} ∪ s]> wl) a b <-> linked wl a b ∨ (a = i ∧ b = x).
Proof.
  intros Hi. unfold linked. destruct (decide (a = i)) as [->|Hne].
  - rewrite list_lookup_insert_eq by (by eapply lookup_lt_Some). rewrite Hi.
    split.
    + intros (s' & [= <-] & Hb). apply elem_of_union in Hb as [Hb|Hb].
      * apply elem_of_singleton in Hb. by right.
      * left. eauto.
    + intros [(s' & [= <-] & Hb) | [_ ->]]; eexists; split; [done | set_solver | done | set_solver].
  - rewrite list_lookup_insert_ne by done. naive_solver.
Qed.

Lemma add_weak_link_spec (d : BoardData) (c1 c2 : nat) (d' : BoardData) :
  add_weak_link d c1 c2 = Some d' ->
  ∃ s1 s2,
    weak_links d !! c1 = Some s1 ∧
    <[c1 := {[c2]} ∪ s1]> (weak_links d) !! c2 = Some s2 ∧
    d' = set_links d (<[c2 := {[c1]} ∪ s2]> (<[c1 := {[c2]} ∪ s1]> (weak_links d)))
           ((if bool_decide (c1 ∉ s2) then 1 else 0) +
            ((if bool_decide (c2 ∉ s1) then 1 else 0) + total_weak_links d)).
Proof.
  unfold add_weak_link, bset_insert.
  destruct (weak_links d !! c1) as [s1|] eqn:E1; simpl; [| done].
  destruct (<[c1 := {[c2]} ∪ s1]> (weak_links d) !! c2) as [s2|] eqn:E2; simpl; [| done].
  intros [= <-]. exists s1, s2. split; [done | split; [done |]].
  f_equal. do 2 case_bool_decide; done.
Qed.

Lemma add_weak_link_linked (d : BoardData) (c1 c2 : nat) (d' : BoardData) :
  add_weak_link d c1 c2 = Some d' ->
  ∀ a b, linked (weak_links d') a b <->
         linked (weak_links d) a b ∨ (a = c1 ∧ b = c2) ∨ (a = c2 ∧ b = c1).
Proof.
  intros H a b. apply add_weak_link_spec in H as (s1 & s2 & E1 & E2 & ->). simpl.
  rewrite linked_insert by exact E2. rewrite linked_insert by exact E1. naive_solver.
Qed.

Lemma add_weak_link_count (d : BoardData) (c1 c2 : nat) (d' : BoardData) :
  total_weak_links d = link_count (weak_links d) ->
  add_weak_link d c1 c2 = Some d' ->
  total_weak_links d' = link_count (weak_links d').
Proof.
  intros Ht H. apply add_weak_link_spec in H as (s1 & s2 & E1 & E2 & ->). simpl.
  pose proof (link_count_insert _ _ _ ({[c2]} ∪ s1) E1) as H1.
  pose proof (link_count_insert _ _ _ ({[c1]} ∪ s2) E2) as H2.
  rewrite card_insert in H1, H2. lia.
Qed.

Lemma link_step_fields (d d' : BoardData) :
  rtc link_step d d' -> ∃ wl t, d' = set_links d wl t.
Proof.
  induction 1 as [d|d1 d2 d3 Hs _ (wl & t & ->)].
  - exists (weak_links d), (total_weak_links d). by destruct d.
  - destruct Hs as (a & b & _ & H). apply add_weak_link_spec in H as (? & ? & _ & _ & ->).
    eexists _, _. reflexivity.
Qed.

Lemma add_weak_links_steps (d : BoardData) (ps : list (nat * nat)) (d' : BoardData) :
  (∀ p, In p ps -> p.1 ≠ p.2) -> add_weak_links d ps = Some d' -> rtc link_step d d'.
Proof.
  revert d. induction ps as [|[a b] ps IH]; intros d Hne H; simpl in H.
  - injection H as <-. constructor.
  - destruct (add_weak_link d a b) as [d1|] eqn:E; simpl in H; [| done].
    eapply rtc_l.
    + exists a, b. split; [apply (Hne (a, b)); by left | done].
    + apply IH; [intros p Hp; apply Hne; by right | done].
Qed.

Lemma add_weak_links_app (d : BoardData) (l1 l2 : list (nat * nat)) :
  add_weak_links d (l1 ++ l2) = d' ← add_weak_links d l1; add_weak_links d' l2.
Proof.
  revert d. induction l1 as [|[a b] l1 IH]; intros d; simpl; [done |].
  destruct (add_weak_link d a b); simpl; [apply IH | done].
Qed.

Lemma cell_pairs_ne (l : list nat) (x y : nat) :
  NoDup l -> In (x, y) (cell_pairs l) -> x ≠ y.
Proof.
  induction l as [|c l IH]; simpl; [done |].
  intros Hnd Hin. apply NoDup_cons in Hnd as [Hc Hnd].
  apply in_app_or in Hin as [Hin|Hin].
  - apply in_map_iff in Hin as (e & [= -> ->] & He). intros ->.
    apply Hc. by apply list_elem_of_In.
  - auto.
Qed.

Lemma candidate_pairs_ne (sz : nat) (l : list nat) (p : nat * nat) :
  NoDup l -> In p (candidate_pairs sz l) -> p.1 ≠ p.2.
Proof.
  intros Hnd Hp. unfold candidate_pairs in Hp.
  apply in_flat_map in Hp as ([x y] & Hxy & Hp).
  apply in_map_iff in Hp as (v & <- & Hv). apply in_seq in Hv. simpl.
  pose proof (cell_pairs_ne l x y Hnd Hxy) as Hne.
  unfold cu_candidate. intros Heq.
  assert (x * sz = y * sz) as Hm by lia.
  apply Nat.mul_cancel_r in Hm; [done | lia].
Qed.

Lemma add_house_links_steps (sz : nat) (d : BoardData) (hs : list House) (d' : BoardData) :
  add_house_links sz d hs = Some d' -> rtc link_step d d'.
Proof.
  revert d. induction hs as [|h hs IH]; intros d H; simpl in H.
  - injection H as <-. constructor.
  - destruct (add_weak_links d _) as [d1|] eqn:E; simpl in H; [| done].
    eapply rtc_trans; [| by apply IH].
    eapply add_weak_links_steps; [| exact E].
    intros p Hp. eapply candidate_pairs_ne; [apply house_cells_nodup | exact Hp].
Qed.

Lemma sudoku_links_of_steps (d : BoardData) (c : nat) (d' : BoardData) :
  sudoku_links_of d c = Some d' -> rtc link_step d d'.
Proof.
  unfold sudoku_links_of, cell_index_and_value.
  destruct (add_weak_links d _) as [d1|] eqn:E; simpl; [| done].
  destruct (houses_by_cell d1 !! (c / size d)) as [hs|]; simpl; [| done].
  intros H. eapply rtc_trans; [| by eapply add_house_links_steps].
  eapply add_weak_links_steps; [| exact E].
  intros p Hp. apply in_map_iff in Hp as (v & <- & Hv). apply in_seq in Hv. simpl.
  unfold cu_candidate. pose proof (Nat.div_mod_eq c (size d)). lia.
Qed.

Lemma sudoku_links_loop_steps (d : BoardData) (cands : list nat) (d' : BoardData) :
  sudoku_links_loop d cands = Some d' -> rtc link_step d d'.
Proof.
  revert d. induction cands as [|c cs IH]; intros d H; simpl in H.
  - injection H as <-. constructor.
  - destruct (sudoku_links_of d c) as [d1|] eqn:E; simpl in H; [| done].
    eapply rtc_trans; [by eapply sudoku_links_of_steps | by apply IH].
Qed.

Lemma add_weak_links_fields (d : BoardData) (ps : list (nat * nat)) (d' : BoardData) :
  add_weak_links d ps = Some d' -> ∃ wl t, d' = set_links d wl t.
Proof.
  revert d. induction ps as [|[a b] ps IH]; intros d H; simpl in H.
  - injection H as <-. exists (weak_links d), (total_weak_links d). by destruct d.
  - destruct (add_weak_link d a b) as [d1|] eqn:E; simpl in H; [| done].
    apply add_weak_link_spec in E as (? & ? & _ & _ & ->).
    apply IH in H as (wl & t & ->). eexists _, _. reflexivity.
Qed.

Lemma constraint_pairs_loop_spec (d : BoardData) (ps : list (nat * nat)) (elims : list nat)
  (d' : BoardData) (elims' : list nat) :
  constraint_pairs_loop d ps elims = Some (d', elims') ->
  add_weak_links d (filter (λ p, p.1 ≠ p.2) ps) = Some d' ∧
  elims' = elims ++ map fst (filter (λ p, p.1 = p.2) ps).
Proof.
  revert d elims. induction ps as [|[a b] ps IH]; intros d elims H; simpl in H.
  - injection H as <- <-. simpl. by rewrite app_nil_r.
  - rewrite !filter_cons. simpl. case_decide as Hab.
    + rewrite decide_False by (intros ?; done). simpl.
      destruct (add_weak_link d a b) as [d1|] eqn:E; simpl in H; [| done].
      apply IH in H as [H1 H2]. simpl. by split.
    + rewrite decide_True by (destruct (decide (a = b)); [done | tauto]).
      apply IH in H as [H1 H2]. split; [done |]. rewrite H2. simpl.
      subst b. by rewrite <- app_assoc.
Qed.

Lemma constraint_links_loop_spec (d : BoardData) (cs : list Constraint) (elims : list nat)
  (d' : BoardData) (elims' : list nat) :
  constraint_links_loop d cs elims = Some (d', elims') ->
  add_weak_links d (filter (λ p, p.1 ≠ p.2) (constraint_pairs (size d) cs)) = Some d' ∧
  elims' = elims ++ map fst (filter (λ p, p.1 = p.2) (constraint_pairs (size d) cs)).
Proof.
  revert d elims. induction cs as [|k cs IH]; intros d elims H; simpl in H.
  - injection H as <- <-. simpl. by rewrite app_nil_r.
  - destruct (constraint_pairs_loop d _ elims) as [[d1 e1]|] eqn:E; simpl in H; [| done].
    apply constraint_pairs_loop_spec in E as [E1 E2].
    pose proof E1 as (wl & t & Hd1)%add_weak_links_fields.
    apply IH in H as [H1 H2]. rewrite Hd1 in H1, H2. simpl in H1, H2.
    unfold constraint_pairs. simpl. rewrite filter_app, add_weak_links_app, E1. simpl.
    rewrite Hd1. split; [done |].
    rewrite H2, E2, filter_app, map_app, app_assoc. done.
Qed.

Lemma init_weak_links_steps (d : BoardData) (d' : BoardData) (elims : list nat) :
  init_weak_links d = Some (d', elims) -> rtc link_step d d'.
Proof.
  unfold init_weak_links, init_sudoku_weak_links.
  destruct (sudoku_links_loop d _) as [d1|] eqn:E; simpl; [| done].
  intros H. apply sudoku_links_loop_steps in E.
  unfold init_constraint_weak_links in H. apply constraint_links_loop_spec in H as [H _].
  eapply rtc_trans; [exact E |]. eapply add_weak_links_steps; [| exact H].
  intros p Hp. apply list_elem_of_In, list_elem_of_filter in Hp as [Hp _]. exact Hp.
Qed.

Lemma link_step_inv (d d' : BoardData) : links_inv d -> link_step d d' -> links_inv d'.
Proof.
  intros (Hsym & Hself & Hcount) (a & b & Hab & H).
  pose proof (add_weak_link_linked _ _ _ _ H) as Hl. split; [| split].
  - intros x y Hxy. apply Hl. apply Hl in Hxy. naive_solver.
  - intros x Hx. apply Hl in Hx. naive_solver.
  - by eapply add_weak_link_count.
Qed.

Lemma board_data_new_inv (sz : nat) (regions : list nat) (cs : list Constraint) (d : BoardData) :
  board_data_new sz regions cs = Some d -> links_inv d.
Proof.
  unfold board_data_new. destruct (create_houses_by_cell _ _); simpl; [| done].
  intros [= <-]. unfold links_inv; simpl. unfold linked.
  assert (∀ a s, replicate (sz * (sz * sz)) (∅ : gset nat) !! a = Some s -> s = ∅) as Hempty.
  { intros a s Ha. by apply lookup_replicate in Ha as [-> _]. }
  split; [| split].
  - intros a b (s & Ha & Hb). apply Hempty in Ha as ->. set_solver.
  - intros a (s & Ha & Hb). apply Hempty in Ha as ->. set_solver.
  - unfold link_count. clear Hempty. induction (sz * (sz * sz)) as [|n IH]; simpl; [done |].
    rewrite <- IH. unfold card. by rewrite size_empty.
Qed.

Lemma board_new_inv (sz : nat) (regions : list nat) (cs : list Constraint) (B : Board) :
  board_new sz regions cs = Some B -> links_inv (data B).
Proof.
  unfold board_new. destruct (board_data_new sz regions cs) as [d|] eqn:Ed; simpl; [| done].
  destruct (init_weak_links d) as [[d' elims]|] eqn:Ei; simpl; [| done].
  destruct (clear_candidates _ _ _) as [[b g']|]; simpl; [| done].
  intros [= <-]. simpl. apply init_weak_links_steps in Ei.
  apply board_data_new_inv in Ed. clear -Ed Ei.
  induction Ei as [d|d1 d2 d3 Hs _ IH]; [done |]. apply IH. by eapply link_step_inv.
Qed.

Lemma add_weak_link_total_step (d : BoardData) (c1 c2 : nat) (d' : BoardData) :
  (∀ a b, linked (weak_links d) a b -> linked (weak_links d) b a) -> c1 ≠ c2 ->
  add_weak_link d c1 c2 = Some d' ->
  (linked (weak_links d) c1 c2 -> total_weak_links d' = total_weak_links d) ∧
  (¬ linked (weak_links d) c1 c2 -> total_weak_links d' = total_weak_links d + 2).
Proof.
  intros Hsym Hne H. apply add_weak_link_spec in H as (s1 & s2 & E1 & E2 & ->). simpl.
  rewrite list_lookup_insert_ne in E2 by done.
  assert (c2 ∈ s1 <-> c1 ∈ s2) as Hiff.
  { split; intros Hin.
    - destruct (Hsym c1 c2) as (s & Hs & Hc); [by exists s1 |]. congruence.
    - destruct (Hsym c2 c1) as (s & Hs & Hc); [by exists s2 |]. congruence. }
  unfold linked. split.
  - intros (s & Hs & Hc). rewrite E1 in Hs. injection Hs as <-.
    assert (c1 ∈ s2) by (by apply Hiff).
    rewrite !bool_decide_eq_false_2 by (intros Hx; contradiction). lia.
  - intros Hn. assert (c2 ∉ s1) as Hc2 by (intros Hc; apply Hn; eauto).
    assert (c1 ∉ s2) by (intros Hc1; by apply Hc2, Hiff).
    rewrite !bool_decide_eq_true_2 by done. lia.
Qed.

Lemma board_data_new_fields (sz : nat) (regions : list nat) (cs : list Constraint) (d : BoardData) :
  board_data_new sz regions cs = Some d -> size d = sz ∧ constraints d = cs ∧ num_cells d = sz * sz.
Proof.
  unfold board_data_new. destruct (create_houses_by_cell _ _); simpl; [| done].
  by intros [= <-].
Qed.

(** C1: for every board built by [Board::new], whatever the size, regions
    and constraints, the weak-link graph is symmetric: [a] is linked to [b]
    iff [b] is linked to [a]. *)
Theorem board_new_weak_links_symmetric (sz : nat) (regions : list nat) (cs : list Constraint)
  (B : Board) :
  board_new sz regions cs = Some B ->
  ∀ a b, linked (weak_links (data B)) a b <-> linked (weak_links (data B)) b a.
Proof.
  intros H a b. apply board_new_inv in H as (Hsym & _ & _). split; apply Hsym.
Qed.

(** C9: after [Board::new], [total_weak_links] is the sum of the sizes of
    all weak-link sets.  Adding a link between two distinct candidates adds
    0 to it when they are already linked, and 2 otherwise. *)
Theorem board_new_total_weak_links (sz : nat) (regions : list nat) (cs : list Constraint)
  (B : Board) :
  board_new sz regions cs = Some B ->
  total_weak_links (data B) = link_count (weak_links (data B)) ∧
  ∀ c1 c2 d', c1 ≠ c2 -> add_weak_link (data B) c1 c2 = Some d' ->
    (linked (weak_links (data B)) c1 c2 -> total_weak_links d' = total_weak_links (data B)) ∧
    (¬ linked (weak_links (data B)) c1 c2 -> total_weak_links d' = total_weak_links (data B) + 2).
Proof.
  intros H. apply board_new_inv in H as (Hsym & _ & Hcount). split; [done |].
  intros c1 c2 d' Hne Hadd. by apply add_weak_link_total_step.
Qed.

(** C5: the links of a board built by [Board::new] are the sudoku links
    plus only the constraint pairs whose two candidates differ; a pair
    [(a, a)] adds no edge.  Every such [a] is absent from the returned
    board. *)
Theorem board_new_forced_eliminations (sz : nat) (regions : list nat) (cs : list Constraint)
  (B : Board) :
  board_new sz regions cs = Some B ->
  (∃ d0 d1, board_data_new sz regions cs = Some d0 ∧ init_sudoku_weak_links d0 = Some d1 ∧
     add_weak_links d1 (filter (λ p, p.1 ≠ p.2) (constraint_pairs sz cs)) = Some (data B)) ∧
  (∀ a, In (a, a) (constraint_pairs sz cs) -> has_candidate sz (board B) a = Some false).
Proof.
  unfold board_new. destruct (board_data_new sz regions cs) as [d0|] eqn:Ed; simpl; [| done].
  destruct (init_weak_links d0) as [[d' elims]|] eqn:Ei; simpl; [| done].
  destruct (clear_candidates sz _ elims) as [[b g']|] eqn:Ec; simpl; [| done].
  intros [= <-]. simpl.
  apply board_data_new_fields in Ed as Hf. destruct Hf as (Hsz & Hcs & _).
  unfold init_weak_links in Ei.
  destruct (init_sudoku_weak_links d0) as [d1|] eqn:Es; simpl in Ei; [| done].
  assert (size d1 = sz ∧ constraints d1 = cs) as [Hsz1 Hcs1].
  { apply sudoku_links_loop_steps, link_step_fields in Es as (wl & t & ->). done. }
  unfold init_constraint_weak_links in Ei.
  apply constraint_links_loop_spec in Ei as [Hl He]. rewrite Hsz1, Hcs1 in Hl, He.
  split; [eauto |].
  intros a Ha. unfold clear_candidates in Ec.
  apply clear_candidates_loop_absent in Ec as [_ Hin]. apply Hin. rewrite He. simpl.
  apply in_map_iff. exists (a, a). split; [done |].
  apply list_elem_of_In, list_elem_of_filter. split; [done | by apply list_elem_of_In].
Qed.

(* ------------------------------------------------------------------ *)
(** ** Concrete behaviour and [set_solved] *)

(** C8: with size 4, default regions and no constraints, candidate
    (row 0, column 0, value 1) has exactly 10 weak links.  They are the
    other 3 values of cell (0,0), value 1 in the rest of row 0 and of
    column 0, and value 1 at cell (1,1). *)
Theorem size4_r0c0_v1 :
  ∃ B, board_new 4 [] [] = Some B ∧
       weak_links (data B) !! cu_candidate 4 (cu_cell 4 0 0) 1 = Some size4_r0c0_v1_links ∧
       card size4_r0c0_v1_links = 10.
Proof.
  assert (Hf : option_map (λ B, weak_links (data B) !! cu_candidate 4 (cu_cell 4 0 0) 1)
                 (board_new 4 [] []) = Some (Some size4_r0c0_v1_links))
    by (vm_compute; reflexivity).
  destruct (board_new 4 [] []) as [B|] eqn:HB; [| discriminate].
  injection Hf as Hf.
  exists B. split; [reflexivity |]. split; [exact Hf | vm_compute; reflexivity].
Qed.

(** Counterexample to C3: a constraint whose [enforce] clears value 1 from
    cell 0 and reports [Invalid].  [set_solved 0 1] then returns [false]
    while cell 0 no longer holds value 1 with the solved flag. *)
Lemma set_solved_enforce_overwrites_cex :
  match board_new 4 [] [clearing_constraint] with
  | Some B =>
      board B !! 0 = Some (from_all_values 4) ∧
      match set_solved (data B) (board B) 0 1 with
      | Some (false, g') => g' !! 0 ≠ Some (mkValueMask (value_bit 1) true)
      | _ => False
      end
  | None => False
  end.
Proof. vm_compute. split; [reflexivity | discriminate]. Qed.

(** Counterexample to C7: sixteen cells all in region 0 do not form a
    partition, yet they are kept.  The board gets 8 houses: that one
    16-cell region is not a house, and there is no box house either.  With
    the default regions it gets 12. *)
Lemma create_houses_keeps_bad_regions_cex :
  regions_partition 4 (replicate 16 0) = false ∧
  regions_used 4 (replicate 16 0) = replicate 16 0 ∧
  length (create_houses 4 (replicate 16 0) []) = 8 ∧
  length (create_houses 4 (default_regions 4) []) = 12.
Proof. vm_compute. auto. Qed.

(** Counterexample to C6: a constraint that rules out every value of cell 0.
    The internal [clear_candidates] call reports [false], yet [Board::new]
    returns the board without that report. *)
Lemma board_new_drops_invalid_report_cex :
  ∃ d0 d1 elims g', board_data_new 4 [] [cell0_eliminating_constraint] = Some d0 ∧
    init_weak_links d0 = Some (d1, elims) ∧
    clear_candidates 4 (replicate 16 (from_all_values 4)) elims = Some (false, g') ∧
    board_new 4 [] [cell0_eliminating_constraint] = Some (mkBoard g' d1).
Proof.
  do 4 eexists. split; [vm_compute; reflexivity |]. split; [vm_compute; reflexivity |].
  split; [vm_compute; reflexivity | vm_compute; reflexivity].
Qed.

Lemma without_solved_other (v w : nat) :
  v ≠ w -> without (mkValueMask (value_bit v) true) w = mkValueMask (value_bit v) true.
Proof.
  intros Hne. unfold without; simpl. f_equal.
  apply Z.bits_inj'. intros n Hn.
  rewrite Z.land_spec, Z.lnot_spec, !value_bit_testbit by lia.
  destruct (Z.eqb_spec (Z.of_nat v - 1) n), (Z.eqb_spec (Z.of_nat w - 1) n),
    (Nat.eqb_spec v 0), (Nat.eqb_spec w 0); simpl; done || lia.
Qed.

Lemma decode_candidate (sz x : nat) :
  x = cu_candidate sz (x / sz) (x mod sz + 1).
Proof. unfold cu_candidate. pose proof (Nat.div_mod_eq x sz). lia. Qed.

Lemma btree_iter_elem (s : gset nat) (x : nat) : In x (btree_iter s) -> x ∈ s.
Proof.
  unfold btree_iter. intros Hx. apply list_elem_of_In in Hx.
  rewrite (merge_sort_Permutation Nat.le) in Hx. by apply elem_of_elements.
Qed.

Lemma apply_weak_links_absent (sz : nat) (es : list nat) (g : list ValueMask) (ok : bool)
  (g2 : list ValueMask) :
  apply_weak_links sz es g = Some (ok, g2) -> ∀ c v, absent g c v -> absent g2 c v.
Proof.
  revert g. induction es as [|e es IH]; intros g H; simpl in H.
  - by injection H as <- <-.
  - destruct (clear_candidate sz g e) as [[ok1 g1]|] eqn:E; [| done].
    apply clear_candidate_absent in E as [_ Hp]. intros c v Ha.
    destruct ok1; [eapply IH; eauto | injection H as <- <-; auto].
Qed.

Lemma apply_weak_links_keeps (sz c v : nat) (es : list nat) (g : list ValueMask) (ok : bool)
  (g2 : list ValueMask) :
  g !! c = Some (mkValueMask (value_bit v) true) ->
  (∀ x, In x es -> ¬ (x / sz = c ∧ x mod sz + 1 = v)) ->
  apply_weak_links sz es g = Some (ok, g2) ->
  g2 !! c = Some (mkValueMask (value_bit v) true) ∧
  ∀ x, In x (performed_clears sz es g) -> has_candidate sz g2 x = Some false.
Proof.
  revert g. induction es as [|e es IH]; intros g Hc Hes H; simpl in H |- *.
  - injection H as <- <-. split; [done | intros ? []].
  - destruct (clear_candidate sz g e) as [[ok1 g1]|] eqn:E; [| done].
    pose proof E as [He Hp]%clear_candidate_absent.
    assert (g1 !! c = Some (mkValueMask (value_bit v) true)) as Hc1.
    { unfold clear_candidate, cell_index_and_value in E.
      apply clear_value_spec in E as (m & Hm & -> & _).
      destruct (decide (e / sz = c)) as [<-|Hne].
      - rewrite Hc in Hm. injection Hm as <-.
        rewrite list_lookup_insert_eq by (by eapply lookup_lt_Some).
        rewrite without_solved_other; [done |].
        intros Hv. apply (Hes e); [by left | done].
      - by rewrite list_lookup_insert_ne. }
    destruct ok1.
    + destruct (IH g1) as [Hc2 Hin]; [done | intros x Hx; apply Hes; by right | done |].
      split; [done |]. intros x [<-|Hx]; [| by apply Hin].
      eapply has_candidate_preserved; [| exact He]. by eapply apply_weak_links_absent.
    + injection H as <- <-. split; [done |]. by intros x [<-|[]].
Qed.

Lemma enforce_constraints_keeps (cs : list Constraint) (c v : nat) (g : list ValueMask)
  (r : bool) (g' : list ValueMask) :
  (∀ k, In k cs -> enforce_keeps k) ->
  enforce_constraints cs c v g = (r, g') ->
  g' !! c = g !! c ∧ ∀ i w, absent g i w -> absent g' i w.
Proof.
  revert g. induction cs as [|k cs IH]; intros g Hk H; simpl in H.
  - injection H as <- <-. done.
  - destruct (Hk k (or_introl eq_refl) g c v) as [Hc Ha].
    destruct (enforce k g c v) as [[] g1] eqn:E; simpl in Hc, Ha.
    + injection H as <- <-. done.
    + destruct (IH g1) as [Hc' Ha']; [intros k' Hk'; apply Hk; by right | done |].
      split; [congruence | auto].
Qed.

Lemma board_new_fields (sz : nat) (regions : list nat) (cs : list Constraint) (B : Board) :
  board_new sz regions cs = Some B -> size (data B) = sz ∧ constraints (data B) = cs.
Proof.
  unfold board_new. destruct (board_data_new sz regions cs) as [d|] eqn:Ed; simpl; [| done].
  destruct (init_weak_links d) as [[d' elims]|] eqn:Ei; simpl; [| done].
  destruct (clear_candidates _ _ _) as [[b g']|]; simpl; [| done].
  intros [= <-]. simpl. apply board_data_new_fields in Ed as (Hs & Hc & _).
  apply init_weak_links_steps, link_step_fields in Ei as (wl & t & ->). done.
Qed.

(** C3 (amended): [set_solved] performs no rollback.  Suppose every
    constraint's [enforce] keeps cell [c] and never gives back a cleared
    candidate, and [set_solved c v] passes its preconditions but returns
    [false].  Then [c]'s mask is exactly [v] with the solved flag, and every
    weak-link elimination it performed is still in effect. *)
Theorem set_solved_no_rollback (sz : nat) (regions : list nat) (cs : list Constraint)
  (B : Board) (g : list ValueMask) (c v : nat) (m : ValueMask) (g' : list ValueMask) :
  board_new sz regions cs = Some B ->
  (∀ k, In k cs -> enforce_keeps k) ->
  g !! c = Some m -> has m v = true -> is_solved m = false ->
  set_solved (data B) g c v = Some (false, g') ->
  g' !! c = Some (mkValueMask (value_bit v) true) ∧
  ∃ links, weak_links (data B) !! cu_candidate sz c v = Some links ∧
    ∀ x, In x (performed_clears sz (btree_iter links)
                 (<[c := mkValueMask (value_bit v) true]> g)) ->
         has_candidate sz g' x = Some false.
Proof.
  intros HB Hk Hm Hv Hs H.
  pose proof (board_new_fields _ _ _ _ HB) as [Hsz Hcs].
  pose proof (board_new_inv _ _ _ _ HB) as (_ & Hself & _).
  unfold set_solved, cell in H. rewrite Hm in H. simpl in H. rewrite Hv, Hs in H. simpl in H. rewrite Hsz, Hcs in H.
  destruct (weak_links (data B) !! cu_candidate sz c v) as [links|] eqn:El; simpl in H; [| done].
  change (solved (with_only m v)) with (mkValueMask (value_bit v) true) in H.
  destruct (apply_weak_links sz (btree_iter links) _) as [[ok g2]|] eqn:Ea; [| done].
  apply apply_weak_links_keeps with (c := c) (v := v) in Ea as [Hc2 Hin].
  - destruct ok.
    + injection H as Hr.
      destruct (enforce_constraints_keeps cs c v g2 false g') as [Hc' Ha']; [done | done |].
      split; [congruence |]. exists links. split; [done |].
      intros x Hx. eapply has_candidate_preserved; [exact Ha' | by apply Hin].
    + injection H as <-. split; [done |]. exists links. split; [done | exact Hin].
  - apply list_lookup_insert_eq. by eapply lookup_lt_Some.
  - intros x Hx [Hxc Hxv]. apply (Hself x). exists links. split.
    + rewrite (decode_candidate sz x), Hxc, Hxv. done.
    + by apply btree_iter_elem.
Qed.

Lemma set_solved_no_rollback_witness :
  ∃ B g', board_new 4 [] [] = Some B ∧
    set_solved (data B) (<[1 := mkValueMask 1 false]> (board B)) 0 1 = Some (false, g') ∧
    g' !! 0 = Some (mkValueMask (value_bit 1) true) ∧
    ∃ links, weak_links (data B) !! cu_candidate 4 0 1 = Some links ∧
      ∀ x, In x (performed_clears 4 (btree_iter links)
                   (<[0 := mkValueMask (value_bit 1) true]> (<[1 := mkValueMask 1 false]> (board B)))) ->
           has_candidate 4 g' x = Some false.
Proof.
  assert (Hf : option_map (λ B, ((<[1 := mkValueMask 1 false]> (board B)) !! 0,
                 option_map fst (set_solved (data B) (<[1 := mkValueMask 1 false]> (board B)) 0 1)))
                 (board_new 4 [] []) = Some (Some (from_all_values 4), Some false))
    by (vm_compute; reflexivity).
  destruct (board_new 4 [] []) as [B|] eqn:HB; [| discriminate].
  cbv beta iota delta [option_map] in Hf. injection Hf as H0 HS0.
  destruct (set_solved (data B) (<[1 := mkValueMask 1 false]> (board B)) 0 1)
    as [[r g']|] eqn:HS; [| discriminate].
  injection HS0 as ->.
  exists B, g'. split; [reflexivity |]. split; [exact HS |].
  apply (set_solved_no_rollback 4 [] [] B _ 0 1 (from_all_values 4) g' HB).
  - intros k [].
  - exact H0.
  - reflexivity.
  - reflexivity.
  - exact HS.
Defined.

Lemma is_empty_without (m : ValueMask) (v : nat) :
  is_empty m = true -> is_empty (without m v) = true.
Proof. unfold is_empty, without. simpl. intros H%Z.eqb_eq. rewrite H. done. Qed.

Lemma clear_loop_report (sz : nat) (L : list nat) (valid : bool) (g : list ValueMask)
  (b : bool) (g' : list ValueMask) :
  clear_candidates_loop sz L valid g = Some (b, g') ->
  (valid = true <-> all_nonempty g) -> (b = true <-> all_nonempty g').
Proof.
  revert valid g. induction L as [|x xs IH]; intros valid g H Hinv; simpl in H.
  - by injection H as <- <-.
  - destruct (clear_candidate sz g x) as [[ok g1]|] eqn:E; [| done].
    apply (IH _ g1 H). unfold clear_candidate, cell_index_and_value in E.
    apply clear_value_spec in E as (m & Hm & -> & ->).
    assert (Hlt : x / sz < length g) by (by eapply lookup_lt_Some).
    destruct (is_empty (without m (x mod sz + 1))) eqn:Ee; simpl.
    + split; [done |]. intros Hall.
      assert (is_empty (without m (x mod sz + 1)) = false); [| congruence].
      apply (Hall (x / sz)). by rewrite list_lookup_insert_eq.
    + rewrite Hinv. split.
      * intros Hall i m' Hi. destruct (decide (i = x / sz)) as [->|Hne].
        -- rewrite list_lookup_insert_eq in Hi by done. congruence.
        -- rewrite list_lookup_insert_ne in Hi by done. eauto.
      * intros Hall i m' Hi. destruct (decide (i = x / sz)) as [->|Hne].
        -- rewrite Hm in Hi. injection Hi as <-.
           destruct (is_empty m) eqn:Em; [| done].
           apply (is_empty_without _ (x mod sz + 1)) in Em. congruence.
        -- apply (Hall i). by rewrite list_lookup_insert_ne.
Qed.

Lemma clear_loop_total (sz : nat) (L : list nat) (valid : bool) (g : list ValueMask) :
  length g = sz * sz -> (∀ e, In e L -> e < sz * (sz * sz)) ->
  is_Some (clear_candidates_loop sz L valid g).
Proof.
  revert valid g. induction L as [|x xs IH]; intros valid g Hlen HL; simpl; [by eexists |].
  unfold clear_candidate, clear_value, cell_index_and_value.
  destruct (g !! (x / sz)) as [m|] eqn:Hm; simpl.
  - apply IH; [by rewrite length_insert | intros e He; apply HL; by right].
  - exfalso. apply lookup_ge_None in Hm. specialize (HL x (or_introl eq_refl)).
    assert (0 < sz) by (destruct sz; lia).
    assert (x / sz < sz * sz); [apply Nat.Div0.div_lt_upper_bound; lia | lia].
Qed.

Lemma all_values_nonempty (sz : nat) : all_nonempty (replicate (sz * sz) (from_all_values sz)).
Proof.
  intros i m Hi. apply lookup_replicate in Hi as [-> Hi].
  unfold is_empty, from_all_values. simpl. apply Z.eqb_neq.
  rewrite Z.shiftl_1_l. assert (2 ^ 1 <= 2 ^ Z.of_nat sz)%Z; [| lia].
  apply Z.pow_le_mono_r; [lia | destruct sz; simpl in Hi; lia].
Qed.

Lemma not_all_nonempty (g : list ValueMask) :
  ¬ all_nonempty g <-> ∃ i m, g !! i = Some m ∧ is_empty m = true.
Proof.
  unfold all_nonempty. split.
  - intros Hn. destruct (existsb is_empty g) eqn:E.
    + apply existsb_exists in E as (m & Hm & He). apply list_elem_of_In in Hm.
      apply list_elem_of_lookup in Hm as (i & Hi). eauto.
    + exfalso. apply Hn. intros i m Hi. apply not_true_iff_false. intros He.
      assert (existsb is_empty g = true); [| congruence].
      apply existsb_exists. exists m. split; [| done].
      apply list_elem_of_In, list_elem_of_lookup. eauto.
  - intros (i & m & Hi & He) Hall. specialize (Hall i m Hi). congruence.
Qed.

(** C6 (amended): when the forced eliminations are in range, [Board::new]
    returns a board whose grid is the one its internal [clear_candidates]
    call left.  That call's result is dropped; it is [false] exactly when
    some cell mask of the returned grid is empty. *)
Theorem board_new_contradiction_in_grid (sz : nat) (regions : list nat) (cs : list Constraint)
  (d0 d1 : BoardData) (elims : list nat) :
  board_data_new sz regions cs = Some d0 ->
  init_weak_links d0 = Some (d1, elims) ->
  (∀ e, In e elims -> e < sz * (sz * sz)) ->
  ∃ b g', clear_candidates sz (replicate (sz * sz) (from_all_values sz)) elims = Some (b, g') ∧
    board_new sz regions cs = Some (mkBoard g' d1) ∧
    (b = false <-> ∃ i m, g' !! i = Some m ∧ is_empty m = true).
Proof.
  intros Hd Hi Hin.
  pose proof Hd as Hf. apply board_data_new_fields in Hf as (_ & _ & Hnc).
  assert (num_cells d1 = sz * sz ∧ all_values_mask d1 = from_all_values sz) as [Hn1 Ha1].
  { apply init_weak_links_steps, link_step_fields in Hi as (wl & t & ->). simpl.
    unfold board_data_new in Hd. destruct (create_houses_by_cell _ _); simpl in Hd; [| done].
    by injection Hd as <-. }
  destruct (clear_loop_total sz elims true (replicate (sz * sz) (from_all_values sz)))
    as [[b g'] Hc]; [by rewrite length_replicate | done |].
  exists b, g'. split; [done |]. split.
  - unfold board_new. rewrite Hd. simpl. rewrite Hi. simpl. rewrite Hn1, Ha1.
    unfold clear_candidates. rewrite Hc. done.
  - rewrite <- not_all_nonempty.
    pose proof (clear_loop_report _ _ _ _ _ _ Hc) as Hr.
    assert (b = true <-> all_nonempty g') as Hb.
    { apply Hr. split; [intros _; apply all_values_nonempty | done]. }
    destruct b; split; try done.
    + intros Hf. exfalso. by apply Hf, Hb.
    + intros _ Hall. by apply Hb in Hall.
Qed.

Lemma board_new_contradiction_in_grid_witness :
  ∃ d0 d1 elims, board_data_new 4 [] [cell0_eliminating_constraint] = Some d0 ∧
    init_weak_links d0 = Some (d1, elims) ∧
    ∃ b g', clear_candidates 4 (replicate (4 * 4) (from_all_values 4)) elims = Some (b, g') ∧
      board_new 4 [] [cell0_eliminating_constraint] = Some (mkBoard g' d1) ∧
      (b = false <-> ∃ i m, g' !! i = Some m ∧ is_empty m = true).
Proof.
  assert (Hf : option_map (λ d0, option_map snd (init_weak_links d0))
                 (board_data_new 4 [] [cell0_eliminating_constraint]) = Some (Some [0; 1; 2; 3]))
    by (vm_compute; reflexivity).
  destruct (board_data_new 4 [] [cell0_eliminating_constraint]) as [d0|] eqn:Hd; [| discriminate].
  cbv beta iota delta [option_map] in Hf. injection Hf as Hf.
  destruct (init_weak_links d0) as [[d1 elims]|] eqn:Hi; [| discriminate].
  injection Hf as He.
  exists d0, d1, elims. split; [reflexivity |]. split; [exact Hi |].
  apply (board_new_contradiction_in_grid 4 [] [cell0_eliminating_constraint] d0 d1 elims Hd Hi).
  rewrite He. clear. intros e He'. repeat destruct He' as [<-|He']; [lia | lia | lia | lia | done].
Defined.

Lemma push_new_house_in (hs : list House) (h x : House) :
  In x (push_new_house hs h) -> In x hs ∨ x = h.
Proof.
  unfold push_new_house. destruct (existsb _ hs); [auto |].
  intros Hx. apply in_app_or in Hx as [Hx|[<-|[]]]; auto.
Qed.

Lemma add_region_houses_in (sz : nat) (regions : list nat) (hs : list House) (h : House) :
  In h (add_region_houses sz regions hs) ->
  In h hs ∨ ∃ region cells, house_for_region sz regions !! region = Some cells ∧
                            length cells = sz ∧
                            h = house_new ("Region " +:+ pretty (region + 1)) cells.
Proof.
  unfold add_region_houses.
  assert (∀ l hs, (∀ p, In p l -> house_for_region sz regions !! p.1 = Some p.2) ->
            In h (fold_left (λ hs '(region, cells),
                   if Nat.eqb (length cells) sz
                   then push_new_house hs (house_new ("Region " +:+ pretty (region + 1)) cells)
                   else hs) l hs) ->
            In h hs ∨ ∃ region cells, house_for_region sz regions !! region = Some cells ∧
                            length cells = sz ∧
                            h = house_new ("Region " +:+ pretty (region + 1)) cells) as Hgen.
  { induction l as [|[r cells] l IH]; intros hs0 Hl Hin; simpl in Hin; [auto |].
    apply IH in Hin as [Hin|Hin]; [| by right | intros p Hp; apply Hl; by right].
    destruct (Nat.eqb_spec (length cells) sz) as [Hlen|]; [| auto].
    apply push_new_house_in in Hin as [Hin| ->]; [auto |].
    right. exists r, cells. split; [apply (Hl (r, cells)); by left | done]. }
  apply Hgen. intros [r cells] Hp. apply elem_of_map_to_list. by apply list_elem_of_In.
Qed.

(** C7 (amended): [create_houses] keeps the supplied regions whenever
    their length is [size * size] and uses the default box regions
    otherwise.  Each region house it adds comes from a region of exactly
    [size] cells. *)
Theorem create_houses_regions_by_length (sz : nat) (regions : list nat) (cs : list Constraint) :
  (length regions = sz * sz -> regions_used sz regions = regions) ∧
  (length regions ≠ sz * sz -> regions_used sz regions = default_regions sz) ∧
  create_houses sz regions cs =
    add_constraint_houses sz cs
      (add_region_houses sz (regions_used sz regions) (row_houses sz ++ column_houses sz)) ∧
  (∀ hs h, In h (add_region_houses sz (regions_used sz regions) hs) ->
     In h hs ∨ ∃ region cells, house_for_region sz (regions_used sz regions) !! region = Some cells ∧
                               length cells = sz ∧
                               h = house_new ("Region " +:+ pretty (region + 1)) cells).
Proof.
  unfold regions_used. split; [| split; [| split]].
  - intros H. by rewrite H, Nat.eqb_refl.
  - intros H. apply Nat.eqb_neq in H. by rewrite H.
  - reflexivity.
  - intros hs h. apply add_region_houses_in.
Qed.

Lemma create_houses_regions_by_length_witness :
  regions_used 4 (replicate 16 0) = replicate 16 0 ∧
  regions_used 4 [] = default_regions 4 ∧
  create_houses 4 [] [] =
    add_constraint_houses 4 [] (add_region_houses 4 (default_regions 4) (row_houses 4 ++ column_houses 4)).
Proof.
  destruct (create_houses_regions_by_length 4 (replicate 16 0) []) as [H1 _].
  destruct (create_houses_regions_by_length 4 [] []) as [_ [H2 [H3 _]]].
  assert (regions_used 4 [] = default_regions 4) as H2' by (apply H2; discriminate).
  split; [apply H1; reflexivity |]. split; [exact H2' |]. rewrite H3, H2'. reflexivity.
Defined.

Lemma run_op_frame (st st' : Store) (i : nat) (op : BoardOp) (r : bool) :
  run_op st i op = Some (r, st') ->
  arcs st' = arcs st ∧ length (boards st') = length (boards st) ∧
  (∀ k, k ≠ i -> boards st' !! k = boards st !! k) ∧
  ∃ g p g', boards st !! i = Some (g, p) ∧ boards st' !! i = Some (g', p).
Proof.
  unfold run_op. destruct (boards st !! i) as [[g p]|] eqn:Hi; [| discriminate].
  destruct (arcs st !! p) as [d|]; simpl; [| discriminate].
  destruct (apply_op d g op) as [[r' g']|]; [| discriminate].
  intros [= _ <-]. simpl. split; [done |]. split; [by rewrite length_insert |].
  split; [intros k Hk; by rewrite list_lookup_insert_ne |].
  exists g, p, g'. split; [done |]. apply list_lookup_insert_eq. by eapply lookup_lt_Some.
Qed.

Lemma run_ops_frame (st st' : Store) (i : nat) (ops : list BoardOp) (rs : list bool) :
  run_ops st i ops = Some (rs, st') ->
  arcs st' = arcs st ∧ (∀ k, k ≠ i -> boards st' !! k = boards st !! k) ∧
  ∀ g p, boards st !! i = Some (g, p) -> ∃ g', boards st' !! i = Some (g', p).
Proof.
  revert st rs. induction ops as [|op ops IH]; intros st rs; simpl.
  - intros [= _ <-]. split; [done |]. split; [done |]. intros g p ->. by exists g.
  - destruct (run_op st i op) as [[r st1]|] eqn:Ho; [| discriminate].
    destruct (run_ops st1 i ops) as [[rs' st2]|] eqn:Hr; [| discriminate].
    intros [= _ <-].
    destruct (run_op_frame _ _ _ _ _ Ho) as (Ha & _ & Hk & g0 & p0 & g1 & H0 & H1).
    destruct (IH _ _ Hr) as (Ha' & Hk' & Hp).
    split; [congruence |]. split; [intros k Hki; rewrite Hk', Hk; done |].
    intros g p Hg. rewrite H0 in Hg. injection Hg as <- <-. by apply (Hp g1).
Qed.

(** C10: mutations run on a shallow clone of board [i] leave board [i]'s
    cell masks and the shared [BoardData] unchanged; the clone still points
    at the same [BoardData]. *)
Theorem shallow_clone_isolated (st st1 st2 : Store) (i j : nat)
    (ops : list BoardOp) (rs : list bool) :
  shallow_clone st i = Some (j, st1) ->
  run_ops st1 j ops = Some (rs, st2) ->
  boards st2 !! i = boards st !! i ∧ arcs st2 = arcs st ∧
  ∃ g p g', boards st !! i = Some (g, p) ∧ boards st2 !! j = Some (g', p).
Proof.
  unfold shallow_clone. destruct (boards st !! i) as [[g p]|] eqn:Hi; simpl; [| discriminate].
  intros [= <- <-] Hr.
  destruct (run_ops_frame _ _ _ _ _ Hr) as (Ha & Hk & Hp). simpl in *.
  assert (i < length (boards st)) by (by eapply lookup_lt_Some).
  split; [rewrite Hk by lia; by rewrite lookup_app_l |].
  split; [done |].
  destruct (Hp g p) as [g' Hg']; [rewrite lookup_app_r, Nat.sub_diag by lia; done |].
  by exists g, p, g'.
Qed.

Lemma shallow_clone_isolated_witness :
  ∃ B st1 st2 rs,
    board_new 4 [] [] = Some B ∧
    shallow_clone (mkStore [data B] [(board B, 0)]) 0 = Some (1, st1) ∧
    run_ops st1 1 [OpSetSolved 0 1; OpClearValue 5 2; OpClearCandidates [8; 9]] = Some (rs, st2) ∧
    boards st2 !! 0 = Some (board B, 0) ∧
    board B !! 0 = Some (from_all_values 4) ∧
    option_map (λ p, p.1 !! 0) (boards st2 !! 1) = Some (Some (mkValueMask (value_bit 1) true)).
Proof.
  assert (Hf : option_map (λ B, (board B !! 0,
                 match shallow_clone (mkStore [data B] [(board B, 0)]) 0 with
                 | Some (j, st1) =>
                     (j, match run_ops st1 1 [OpSetSolved 0 1; OpClearValue 5 2; OpClearCandidates [8; 9]] with
                         | Some (_, st2) => Some (option_map (λ p, p.1 !! 0) (boards st2 !! 1))
                         | None => None
                         end)
                 | None => (0, None)
                 end)) (board_new 4 [] []) =
               Some (Some (from_all_values 4), (1, Some (Some (Some (mkValueMask (value_bit 1) true))))))
    by (vm_compute; reflexivity).
  destruct (board_new 4 [] []) as [B|] eqn:HB; [| discriminate].
  cbv beta iota delta [option_map] in Hf.
  destruct (shallow_clone (mkStore [data B] [(board B, 0)]) 0) as [[j st1]|] eqn:Hc;
    [| discriminate].
  destruct (run_ops st1 1 [OpSetSolved 0 1; OpClearValue 5 2; OpClearCandidates [8; 9]]) as [[rs st2]|] eqn:Hr; [| discriminate].
  injection Hf as H0 -> H1.
  exists B, st1, st2, rs. split; [reflexivity |]. split; [exact Hc |]. split; [exact Hr |].
  destruct (shallow_clone_isolated _ st1 st2 0 1 _ rs Hc Hr) as (Hi & _ & _).
  split; [rewrite Hi; reflexivity |]. split; [exact H0 |]. exact H1.
Defined.

Lemma set_solved_precondition_no_mutation_witness :
  ∃ B, board_new 4 [] [] = Some B ∧ set_solved (data B) (board B) 0 5 = Some (false, board B).
Proof.
  assert (Hf : option_map (λ B, board B !! 0) (board_new 4 [] []) = Some (Some (from_all_values 4)))
    by (vm_compute; reflexivity).
  destruct (board_new 4 [] []) as [B|] eqn:HB; [| discriminate].
  injection Hf as Hf.
  exists B. split; [reflexivity |].
  apply (set_solved_precondition_no_mutation (data B) (board B) 0 5 (from_all_values 4) Hf).
  left. reflexivity.
Defined.

Lemma clear_candidates_applies_all_witness :
  ∃ g', clear_candidates 4 (replicate 16 (from_all_values 4)) [0; 5; 6] = Some (true, g') ∧
    has_candidate 4 g' 5 = Some false.
Proof.
  assert (Hf : option_map fst (clear_candidates 4 (replicate 16 (from_all_values 4)) [0; 5; 6])
                 = Some true) by (vm_compute; reflexivity).
  destruct (clear_candidates 4 (replicate 16 (from_all_values 4)) [0; 5; 6]) as [[b g']|] eqn:Hc;
    [| discriminate].
  injection Hf as ->.
  exists g'. split; [reflexivity |].
  apply (proj2 (clear_candidates_applies_all 4 _ [0; 5; 6] true g') Hc 5).
  simpl. auto.
Defined.

Lemma board_new_weak_links_symmetric_witness :
  ∃ B, board_new 4 [] [] = Some B ∧
    (linked (weak_links (data B)) 0 4 <-> linked (weak_links (data B)) 4 0).
Proof.
  assert (Hf : option_map (λ _, tt) (board_new 4 [] []) = Some tt) by (vm_compute; reflexivity).
  destruct (board_new 4 [] []) as [B|] eqn:HB; [| discriminate].
  exists B. split; [reflexivity |].
  exact (board_new_weak_links_symmetric 4 [] [] B HB 0 4).
Defined.

Lemma board_new_total_weak_links_witness :
  ∃ B, board_new 4 [] [] = Some B ∧
    total_weak_links (data B) = link_count (weak_links (data B)).
Proof.
  assert (Hf : option_map (λ _, tt) (board_new 4 [] []) = Some tt) by (vm_compute; reflexivity).
  destruct (board_new 4 [] []) as [B|] eqn:HB; [| discriminate].
  exists B. split; [reflexivity |].
  exact (proj1 (board_new_total_weak_links 4 [] [] B HB)).
Defined.

Lemma board_new_forced_eliminations_witness :
  ∃ B, board_new 4 [] [cell0_eliminating_constraint] = Some B ∧
    has_candidate 4 (board B) 0 = Some false.
Proof.
  assert (Hf : option_map (λ _, tt) (board_new 4 [] [cell0_eliminating_constraint]) = Some tt)
    by (vm_compute; reflexivity).
  destruct (board_new 4 [] [cell0_eliminating_constraint]) as [B|] eqn:HB; [| discriminate].
  exists B. split; [reflexivity |].
  apply (proj2 (board_new_forced_eliminations 4 [] [cell0_eliminating_constraint] B HB) 0).
  vm_compute. auto.
Defined.

(* ------------------------------------------------------------------ *)
(** ** Further properties of board.rs *)

Lemma without_comm (m : ValueMask) (v w : nat) :
  without (without m v) w = without (without m w) v.
Proof. unfold without; simpl. f_equal. by rewrite <- !Z.land_assoc, (Z.land_comm (Z.lnot _)). Qed.

Lemma without_idem (m : ValueMask) (v : nat) : without (without m v) v = without m v.
Proof. unfold without; simpl. f_equal. by rewrite <- Z.land_assoc, Z.land_diag. Qed.

Lemma without_absent (m : ValueMask) (v : nat) : has m v = false -> without m v = m.
Proof.
  unfold has, without. destruct m as [bits s]; simpl. intros Hv. f_equal.
  apply Z.bits_inj'. intros n Hn. rewrite Z.land_spec, Z.lnot_spec, value_bit_testbit by lia.
  destruct (Z.eqb_spec (Z.of_nat v - 1) n) as [<-|]; simpl; [rewrite Hv; done |].
  by rewrite andb_true_r.
Qed.

(** X1: clearing the same value of the same cell twice gives the same result and
    report as clearing it once. *)
Theorem clear_value_idempotent (g : list ValueMask) (c v : nat) (ok : bool) (g' : list ValueMask) :
  clear_value g c v = Some (ok, g') -> clear_value g' c v = Some (ok, g').
Proof.
  intros H. apply clear_value_spec in H as (m & Hm & -> & ->).
  unfold clear_value. rewrite list_lookup_insert_eq by (by eapply lookup_lt_Some). simpl.
  by rewrite without_idem, list_insert_insert_eq.
Qed.

(** X2: two successful [clear_value] calls can be swapped: the other order
    also succeeds and reaches the same grid. *)
Theorem clear_value_commute (g : list ValueMask) (c1 v1 c2 v2 : nat) (b1 b2 : bool)
  (g1 g2 : list ValueMask) :
  clear_value g c1 v1 = Some (b1, g1) -> clear_value g1 c2 v2 = Some (b2, g2) ->
  ∃ b1' b2' g1', clear_value g c2 v2 = Some (b2', g1') ∧ clear_value g1' c1 v1 = Some (b1', g2).
Proof.
  intros H1 H2. apply clear_value_spec in H1 as (m1 & Hm1 & -> & ->).
  apply clear_value_spec in H2 as (m2 & Hm2 & -> & ->).
  assert (c1 < length g) by (by eapply lookup_lt_Some).
  destruct (decide (c1 = c2)) as [<-|Hne].
  - rewrite list_lookup_insert_eq in Hm2 by done. injection Hm2 as <-.
    do 3 eexists. split; [unfold clear_value; rewrite Hm1; reflexivity |].
    unfold clear_value. rewrite list_lookup_insert_eq by done. simpl.
    by rewrite !list_insert_insert_eq, without_comm.
  - rewrite list_lookup_insert_ne in Hm2 by done.
    do 3 eexists. split; [unfold clear_value; rewrite Hm2; reflexivity |].
    unfold clear_value. rewrite list_lookup_insert_ne by done. rewrite Hm1. simpl.
    by rewrite list_insert_insert_ne by done.
Qed.

(** X3: clearing a value the cell no longer has leaves the grid unchanged and
    reports whether that cell is non-empty. *)
Theorem clear_value_absent_noop (g : list ValueMask) (c v : nat) (m : ValueMask) :
  g !! c = Some m -> has m v = false -> clear_value g c v = Some (negb (is_empty m), g).
Proof.
  intros Hm Hv. unfold clear_value. rewrite Hm. simpl. rewrite without_absent by done.
  by rewrite list_insert_id.
Qed.



Lemma cell_index_and_value_inj (sz x y : nat) :
  0 < sz -> x / sz = y / sz -> x mod sz = y mod sz -> x = y.
Proof. intros Hsz H1 H2. rewrite (Nat.div_mod_eq x sz), (Nat.div_mod_eq y sz). lia. Qed.

Lemma clear_candidate_frame (sz : nat) (g : list ValueMask) (x : nat) (ok : bool)
  (g' : list ValueMask) :
  0 < sz -> clear_candidate sz g x = Some (ok, g') ->
  has_candidate sz g' x = Some false ∧
  (∀ y, y ≠ x -> has_candidate sz g' y = has_candidate sz g y) ∧
  length g' = length g ∧
  (∀ i m', g' !! i = Some m' -> ∃ m, g !! i = Some m ∧ is_solved m' = is_solved m) ∧
  (ok = false <-> ∃ m', g' !! (x / sz) = Some m' ∧ is_empty m' = true).
Proof.
  intros Hsz H. pose proof H as [Hx _]%clear_candidate_absent.
  unfold clear_candidate, cell_index_and_value in H.
  apply clear_value_spec in H as (m & Hm & -> & ->).
  assert (x / sz < length g) by (by eapply lookup_lt_Some).
  split; [done |]. split; [| split; [| split]].
  - intros y Hne. unfold has_candidate, cell_index_and_value, cell.
    destruct (decide (y / sz = x / sz)) as [Heq|Hne'].
    + rewrite Heq, list_lookup_insert_eq, Hm by done. simpl. rewrite has_without.
      destruct (Nat.eqb_spec (x mod sz + 1) (y mod sz + 1)) as [Hv|]; [| by rewrite andb_true_r].
      exfalso. apply Hne. apply (cell_index_and_value_inj sz); lia.
    + by rewrite list_lookup_insert_ne.
  - apply length_insert.
  - intros i m' Hi. destruct (decide (i = x / sz)) as [->|Hne].
    + rewrite list_lookup_insert_eq in Hi by done. injection Hi as <-. by exists m.
    + rewrite list_lookup_insert_ne in Hi by done. by exists m'.
  - rewrite list_lookup_insert_eq by done. split.
    + intros Hb. exists (without m (x mod sz + 1)). split; [done |]. by destruct (is_empty _).
    + intros (m' & [= <-] & ->). done.
Qed.

(** X6: a successful [clear_candidate x] removes [x], leaves every other
    candidate's presence, the grid length and all solved flags unchanged, and
    returns [false] iff the cell of [x] became empty. *)
Theorem clear_candidate_only_target (sz : nat) (g : list ValueMask) (x : nat) (ok : bool)
  (g' : list ValueMask) :
  0 < sz -> clear_candidate sz g x = Some (ok, g') ->
  has_candidate sz g' x = Some false ∧
  (∀ y, y ≠ x -> has_candidate sz g' y = has_candidate sz g y) ∧
  length g' = length g ∧
  (∀ i m', g' !! i = Some m' -> ∃ m, g !! i = Some m ∧ is_solved m' = is_solved m) ∧
  (ok = false <-> ∃ m', g' !! (x / sz) = Some m' ∧ is_empty m' = true).
Proof. apply clear_candidate_frame. Qed.

Lemma clear_candidates_loop_valid (sz : nat) (L : list nat) (valid : bool) (g : list ValueMask) :
  clear_candidates_loop sz L valid g =
  (λ p, (valid && p.1, p.2)) <$> clear_candidates_loop sz L true g.
Proof.
  revert valid g. induction L as [|x xs IH]; intros valid g; simpl.
  - by rewrite andb_true_r.
  - destruct (clear_candidate sz g x) as [[ok g1]|]; [| done].
    rewrite (IH (if ok then valid else false)), (IH (if ok then true else false)).
    destruct (clear_candidates_loop sz xs true g1) as [[b g2]|]; [| done]. simpl.
    by destruct ok, valid.
Qed.

Lemma clear_candidates_loop_app (sz : nat) (L1 L2 : list nat) (valid : bool) (g : list ValueMask) :
  clear_candidates_loop sz (L1 ++ L2) valid g =
  match clear_candidates_loop sz L1 valid g with
  | None => None
  | Some (b1, g1) => clear_candidates_loop sz L2 b1 g1
  end.
Proof.
  revert valid g. induction L1 as [|x xs IH]; intros valid g; simpl; [done |].
  destruct (clear_candidate sz g x) as [[ok g1]|]; [apply IH | done].
Qed.

(** X7: [clear_candidates] over a concatenation is the first part followed by
    the second, and reports [true] iff both parts do. *)
Theorem clear_candidates_app (sz : nat) (g : list ValueMask) (L1 L2 : list nat) :
  clear_candidates sz g (L1 ++ L2) =
  match clear_candidates sz g L1 with
  | None => None
  | Some (b1, g1) =>
      match clear_candidates sz g1 L2 with
      | None => None
      | Some (b2, g2) => Some (b1 && b2, g2)
      end
  end.
Proof.
  unfold clear_candidates. rewrite clear_candidates_loop_app.
  destruct (clear_candidates_loop sz L1 true g) as [[b1 g1]|]; [| done].
  rewrite clear_candidates_loop_valid.
  by destruct (clear_candidates_loop sz L2 true g1) as [[b2 g2]|].
Qed.

Lemma clear_value_pair_sym (g : list ValueMask) (c1 v1 c2 v2 : nat) :
  match clear_value g c1 v1 with
  | None => None
  | Some (o1, g1) =>
      match clear_value g1 c2 v2 with None => None | Some (o2, g2) => Some (o1 && o2, g2) end
  end =
  match clear_value g c2 v2 with
  | None => None
  | Some (o2, g1) =>
      match clear_value g1 c1 v1 with None => None | Some (o1, g2) => Some (o2 && o1, g2) end
  end.
Proof.
  unfold clear_value.
  destruct (g !! c1) as [m1|] eqn:E1, (g !! c2) as [m2|] eqn:E2; simpl.
  - assert (c1 < length g) by (by eapply lookup_lt_Some).
    assert (c2 < length g) by (by eapply lookup_lt_Some).
    destruct (decide (c1 = c2)) as [<-|Hne].
    + rewrite E1 in E2. injection E2 as <-.
      rewrite !list_lookup_insert_eq by done. simpl.
      rewrite !list_insert_insert_eq, (without_comm m1 v1 v2).
      destruct (is_empty (without (without m1 v2) v1)) eqn:Ee; simpl.
      * by rewrite !andb_false_r.
      * assert (is_empty (without m1 v1) = false) as ->.
        { destruct (is_empty (without m1 v1)) eqn:E; [| done].
          apply (is_empty_without _ v2) in E. by rewrite without_comm, Ee in E. }
        assert (is_empty (without m1 v2) = false) as ->.
        { destruct (is_empty (without m1 v2)) eqn:E; [| done].
          apply (is_empty_without _ v1) in E. by rewrite Ee in E. }
        done.
    + rewrite !list_lookup_insert_ne by done. rewrite E1, E2. simpl.
      rewrite list_insert_insert_ne by done. by rewrite andb_comm.
  - assert (c1 ≠ c2) by congruence. rewrite list_lookup_insert_ne, E2 by done. done.
  - assert (c1 ≠ c2) by congruence. rewrite list_lookup_insert_ne, E1 by done. done.
  - done.
Qed.

Lemma clear_candidates_loop_swap (sz x y : nat) (l : list nat) (valid : bool) (g : list ValueMask) :
  clear_candidates_loop sz (x :: y :: l) valid g = clear_candidates_loop sz (y :: x :: l) valid g.
Proof.
  assert (∀ a b, clear_candidates_loop sz (a :: b :: l) valid g =
    match (match clear_candidate sz g a with
           | None => None
           | Some (o1, g1) =>
               match clear_candidate sz g1 b with
               | None => None | Some (o2, g2) => Some (o1 && o2, g2) end
           end) with
    | None => None
    | Some (o, g2) => clear_candidates_loop sz l (valid && o) g2
    end) as Hc.
  { intros a b. simpl. destruct (clear_candidate sz g a) as [[o1 g1]|]; [| done].
    destruct (clear_candidate sz g1 b) as [[o2 g2]|]; [| done].
    by destruct o1, o2, valid. }
  rewrite !Hc. unfold clear_candidate, cell_index_and_value.
  by rewrite clear_value_pair_sym.
Qed.

(** X8: the result of [clear_candidates] does not depend on the order of the
    candidates. *)
Theorem clear_candidates_perm (sz : nat) (g : list ValueMask) (L L' : list nat) :
  Permutation L L' -> clear_candidates sz g L = clear_candidates sz g L'.
Proof.
  unfold clear_candidates. intros HP. generalize true as valid. revert g.
  induction HP as [|x l l' _ IH|x y l|l l' l'' _ IH1 _ IH2]; intros g valid.
  - done.
  - simpl. destruct (clear_candidate sz g x) as [[ok g1]|]; [apply IH | done].
  - apply clear_candidates_loop_swap.
  - by rewrite IH1, IH2.
Qed.

Lemma push_house_cells_some (h : House) (cells : list nat) (hbc : list (list House)) :
  is_Some (push_house_cells h cells hbc) <-> ∀ c, c ∈ cells -> c < length hbc.
Proof.
  revert hbc. induction cells as [|c cs IH]; intros hbc; simpl.
  - split; [intros _ c Hc; by apply elem_of_nil in Hc | by eexists].
  - destruct (hbc !! c) as [l|] eqn:Hl; simpl.
    + rewrite IH, length_insert. assert (c < length hbc) by (by eapply lookup_lt_Some).
      split.
      * intros Hall c' Hc'%elem_of_cons. destruct Hc' as [->|Hc']; auto.
      * intros Hall c' Hc'. apply Hall. by right.
    + apply lookup_ge_None in Hl. split; [by intros [] |].
      intros H. specialize (H c (proj2 (elem_of_cons _ _ _) (or_introl eq_refl))). lia.
Qed.

Lemma push_house_cells_lookup (h : House) (cells : list nat) (hbc hbc' : list (list House)) :
  NoDup cells -> push_house_cells h cells hbc = Some hbc' ->
  length hbc' = length hbc ∧
  ∀ i, hbc' !! i = (λ l, if bool_decide (i ∈ cells) then l ++ [h] else l) <$> hbc !! i.
Proof.
  revert hbc. induction cells as [|c cs IH]; intros hbc Hnd H; simpl in H.
  - injection H as <-. split; [done |]. intros i. by destruct (hbc !! i).
  - apply NoDup_cons in Hnd as [Hc Hnd].
    destruct (hbc !! c) as [l|] eqn:Hl; simpl in H; [| done].
    assert (c < length hbc) by (by eapply lookup_lt_Some).
    destruct (IH _ Hnd H) as [Hlen Hi]. rewrite length_insert in Hlen.
    split; [done |]. intros i. rewrite Hi.
    destruct (decide (i = c)) as [->|Hne].
    + rewrite list_lookup_insert_eq, Hl by done. simpl.
      rewrite bool_decide_eq_false_2 by done. rewrite bool_decide_eq_true_2; [done |].
      apply elem_of_cons; by left.
    + rewrite list_lookup_insert_ne by done. destruct (hbc !! i); [simpl | done].
      f_equal. assert (i ∈ c :: cs <-> i ∈ cs) as Hiff.
      { rewrite elem_of_cons. naive_solver. }
      destruct (decide (i ∈ cs)) as [Hin|Hin].
      * rewrite (bool_decide_eq_true_2 (i ∈ cs)) by done. rewrite (bool_decide_eq_true_2 (i ∈ c :: cs)); [done | by apply Hiff].
      * rewrite (bool_decide_eq_false_2 (i ∈ cs)) by done. rewrite (bool_decide_eq_false_2 (i ∈ c :: cs)); [done | by rewrite Hiff].
Qed.

Lemma push_houses_spec (hs : list House) (hbc : list (list House)) :
  (is_Some (push_houses hs hbc) <-> ∀ h c, In h hs -> c ∈ house_cells h -> c < length hbc) ∧
  ∀ hbc', push_houses hs hbc = Some hbc' ->
    length hbc' = length hbc ∧
    ∀ i, hbc' !! i = (λ l, l ++ filter (λ h, i ∈ house_cells h) hs) <$> hbc !! i.
Proof.
  revert hbc. induction hs as [|h hs IH]; intros hbc; simpl.
  - split; [split; [intros _ h c [] | by eexists] |].
    intros hbc' [= <-]. split; [done |]. intros i. destruct (hbc !! i); simpl; [| done].
    by rewrite app_nil_r.
  - split.
    + destruct (push_house_cells h (house_cells h) hbc) as [hbc1|] eqn:E; simpl.
      * destruct (push_house_cells_lookup _ _ _ _ (house_cells_nodup h) E) as [Hlen _].
        rewrite (proj1 (IH hbc1)), Hlen.
        assert (∀ c, c ∈ house_cells h -> c < length hbc) as Hh.
        { apply (proj1 (push_house_cells_some h (house_cells h) hbc)). by rewrite E. }
        split; [intros H h' c [<-|Hh'] Hc; [auto | eauto] | intros H h' c Hh' Hc; apply (H h'); auto].
      * split; [by intros [] |]. intros H.
        assert (is_Some (push_house_cells h (house_cells h) hbc)) as [? Hs]; [| congruence].
        apply (proj2 (push_house_cells_some h (house_cells h) hbc)). intros c Hc. apply (H h); [by left | done].
    + intros hbc'. destruct (push_house_cells h (house_cells h) hbc) as [hbc1|] eqn:E; simpl;
        [| done].
      intros Hp. destruct (push_house_cells_lookup _ _ _ _ (house_cells_nodup h) E) as [Hlen Hi].
      destruct (proj2 (IH hbc1) hbc' Hp) as [Hlen' Hi']. split; [congruence |].
      intros i. rewrite Hi', Hi. destruct (hbc !! i) as [l|]; simpl; [| done].
      f_equal. rewrite filter_cons. case_decide.
      * rewrite bool_decide_eq_true_2 by done. by rewrite <- app_assoc.
      * rewrite bool_decide_eq_false_2 by done. done.
Qed.

Lemma create_houses_by_cell_correct (sz : nat) (hs : list House) :
  (is_Some (create_houses_by_cell sz hs) <->
     ∀ h c, In h hs -> c ∈ house_cells h -> c < sz * sz) ∧
  ∀ hbc, create_houses_by_cell sz hs = Some hbc ->
    length hbc = sz * sz ∧
    ∀ i, i < sz * sz -> hbc !! i = Some (filter (λ h, i ∈ house_cells h) hs).
Proof.
  unfold create_houses_by_cell. destruct (push_houses_spec hs (replicate (sz * sz) [])) as [Hs Hl].
  rewrite length_replicate in Hs. split; [done |].
  intros hbc H. destruct (Hl hbc H) as [Hlen Hi]. rewrite length_replicate in Hlen.
  split; [done |]. intros i Hlt. rewrite Hi, lookup_replicate_2 by done. done.
Qed.

(** X9: [create_houses_by_cell] succeeds iff every cell of every house is
    below [size * size]; the result has one entry per cell, listing in order
    the houses that contain that cell. *)
Theorem create_houses_by_cell_spec (sz : nat) (hs : list House) :
  (is_Some (create_houses_by_cell sz hs) <->
     ∀ h c, In h hs -> c ∈ house_cells h -> c < sz * sz) ∧
  ∀ hbc, create_houses_by_cell sz hs = Some hbc ->
    length hbc = sz * sz ∧
    ∀ i, i < sz * sz -> hbc !! i = Some (filter (λ h, i ∈ house_cells h) hs).
Proof. apply create_houses_by_cell_correct. Qed.

(** The region map after the cells of [l] have been entered. *)
Lemma house_for_region_fold (regions : list nat) (l : list nat) (m : gmap nat (list nat)) (r : nat) :
  fold_left (fun m cell =>
               let region := default 0 (regions !! cell) in
               <[region := default [] (m !! region) ++ [cell]]> m) l m !! r =
  match m !! r, filter (λ c, default 0 (regions !! c) = r) l with
  | Some xs, ys => Some (xs ++ ys)
  | None, [] => None
  | None, ys => Some ys
  end.
Proof.
  revert m. induction l as [|c l IH]; intros m; simpl.
  - destruct (m !! r); [by rewrite app_nil_r | done].
  - rewrite IH, filter_cons. destruct (decide (default 0 (regions !! c) = r)) as [Hr|Hr].
    + rewrite Hr, lookup_insert_eq.
      destruct (m !! r); simpl; [by rewrite <- app_assoc | done].
    + rewrite lookup_insert_ne by done. done.
Qed.

Lemma filter_ext_in {A} (P1 P2 : A -> Prop) `{!∀ x, Decision (P1 x), !∀ x, Decision (P2 x)}
  (l : list A) :
  (∀ x, In x l -> P1 x <-> P2 x) -> filter P1 l = filter P2 l.
Proof.
  induction l as [|x l IH]; intros Hiff; [done |]. rewrite !filter_cons.
  rewrite IH by (intros y Hy; apply Hiff; by right).
  destruct (decide (P1 x)), (decide (P2 x)); try done; exfalso; naive_solver.
Qed.

(** X10: for a full-length region list, the region map of [create_houses]
    holds, for each region that occurs, the cells of that region in
    ascending order, and nothing for a region that does not occur. *)
Theorem house_for_region_spec (sz : nat) (regions : list nat) (r : nat) (cells : list nat) :
  length regions = sz * sz ->
  house_for_region sz regions !! r = Some cells <->
  cells ≠ [] ∧ cells = filter (λ c, regions !! c = Some r) (seq 0 (sz * sz)).
Proof.
  intros Hlen. unfold house_for_region, all_cells. rewrite house_for_region_fold, lookup_empty.
  assert (filter (λ c, default 0 (regions !! c) = r) (seq 0 (sz * sz)) =
          filter (λ c, regions !! c = Some r) (seq 0 (sz * sz))) as ->.
  { apply filter_ext_in. intros c Hc%in_seq.
    destruct (lookup_lt_is_Some_2 regions c) as [x ->]; [lia |]. simpl. naive_solver. }
  destruct (filter _ _) as [|y ys]; naive_solver.
Qed.

Lemma push_new_house_inv (base : list House) (src : House -> Prop) (hs : list House) (h : House) :
  houses_inv base src hs -> src h -> houses_inv base src (push_new_house hs h).
Proof.
  intros (extra & -> & Hd & Hs) Hh. unfold push_new_house.
  destruct (existsb _ _) eqn:E; [by exists extra |].
  exists (extra ++ [h]). split; [by rewrite app_assoc |]. split.
  - intros k h0 Hk h' Hh'. apply lookup_app_Some in Hk as [Hk|[Hge Hk]].
    + assert (k < length extra) by (by eapply lookup_lt_Some).
      rewrite take_app_le in Hh' by lia. by apply (Hd k).
    + apply list_lookup_singleton_Some in Hk as [Hk0 Hh0]. subst h0.
      assert (k = length extra) as -> by lia. rewrite take_app_length in Hh'.
      intros Heq. assert (existsb (λ h', bool_decide (house_cells h' = house_cells h))
                                  (base ++ extra) = true) as Ht; [| congruence].
      apply existsb_exists. exists h'. split; [done |]. by apply bool_decide_eq_true_2.
  - intros h0 [Hin|[<-|[]]]%in_app_or; auto.
Qed.

Lemma fold_push_inv (base : list House) (src : House -> Prop) (hl hs : list House) :
  (∀ h, In h hl -> src h) -> houses_inv base src hs ->
  houses_inv base src (fold_left push_new_house hl hs).
Proof.
  revert hs. induction hl as [|h hl IH]; intros hs Hsrc Hinv; simpl; [done |].
  apply IH; [intros h' Hh'; apply Hsrc; by right |].
  apply push_new_house_inv; [done | apply Hsrc; by left].
Qed.

Lemma houses_inv_mono (base : list House) (src src' : House -> Prop) (hs : list House) :
  (∀ h, src h -> src' h) -> houses_inv base src hs -> houses_inv base src' hs.
Proof. intros Himp (extra & Hhs & Hd & Hs). exists extra. auto. Qed.

(** X11: [create_houses] yields the rows, then the columns, then only houses
    of two kinds: regions of exactly [size] cells named Region [r+1], and
    houses a constraint supplies; none of them repeats the cells of an
    earlier house. *)
Theorem create_houses_shape (sz : nat) (regions : list nat) (cs : list Constraint) :
  ∃ extra, create_houses sz regions cs = row_houses sz ++ column_houses sz ++ extra ∧
    added_distinct (row_houses sz ++ column_houses sz) extra ∧
    ∀ h, In h extra ->
      (∃ region cells, house_for_region sz (regions_used sz regions) !! region = Some cells ∧
                       length cells = sz ∧
                       h = house_new ("Region " +:+ pretty (region + 1)) cells) ∨
      (∃ k, In k cs ∧ In h (get_houses k sz)).
Proof.
  set (base := row_houses sz ++ column_houses sz).
  set (rsrc := λ h, ∃ region cells,
         house_for_region sz (regions_used sz regions) !! region = Some cells ∧
         length cells = sz ∧ h = house_new ("Region " +:+ pretty (region + 1)) cells).
  assert (houses_inv base rsrc (add_region_houses sz (regions_used sz regions) base)) as Hr.
  { unfold add_region_houses.
    assert (∀ l hs, (∀ p, In p l -> house_for_region sz (regions_used sz regions) !! p.1 = Some p.2) ->
              houses_inv base rsrc hs ->
              houses_inv base rsrc
                (fold_left (λ hs '(region, cells),
                   if Nat.eqb (length cells) sz
                   then push_new_house hs (house_new ("Region " +:+ pretty (region + 1)) cells)
                   else hs) l hs)) as Hgen.
    { induction l as [|[r cells] l IH]; intros hs Hl Hinv; simpl; [done |].
      apply IH; [intros p Hp; apply Hl; by right |].
      destruct (Nat.eqb_spec (length cells) sz) as [Hlen|]; [| done].
      apply push_new_house_inv; [done |]. exists r, cells.
      split; [apply (Hl (r, cells)); by left | done]. }
    apply Hgen.
    - intros [r cells] Hp. apply elem_of_map_to_list. by apply list_elem_of_In.
    - exists []. rewrite app_nil_r. split; [done |]. split; [| intros h []].
      intros k h Hk. by rewrite lookup_nil in Hk. }
  assert (houses_inv base (λ h, rsrc h ∨ ∃ k, In k cs ∧ In h (get_houses k sz))
            (create_houses sz regions cs)) as (extra & Hhs & Hd & Hs).
  { unfold create_houses, add_constraint_houses. fold base.
    apply (houses_inv_mono _ rsrc (λ h, rsrc h ∨ ∃ k, In k cs ∧ In h (get_houses k sz))) in Hr; [| by left].
    assert (∀ cs', (∀ k, In k cs' -> In k cs) ->
      ∀ hs, houses_inv base (λ h, rsrc h ∨ ∃ k, In k cs ∧ In h (get_houses k sz)) hs ->
      houses_inv base (λ h, rsrc h ∨ ∃ k, In k cs ∧ In h (get_houses k sz))
        (fold_left (λ hs c, fold_left push_new_house (get_houses c sz) hs) cs' hs)) as Hgen.
    { induction cs' as [|k cs' IH]; intros Hsub hs Hinv; simpl; [done |].
      apply IH; [intros k' Hk'; apply Hsub; by right |].
      apply fold_push_inv; [| done]. intros h Hh. right. exists k. split; [apply Hsub; by left | done]. }
    by apply Hgen. }
  exists extra. rewrite Hhs. split; [by rewrite app_assoc |]. split; [done | exact Hs].
Qed.

Lemma has_all_values (sz v : nat) : has (from_all_values sz) v = true <-> 1 <= v <= sz.
Proof.
  unfold has, from_all_values. simpl. rewrite Z.shiftl_1_l.
  replace (2 ^ Z.of_nat sz - 1)%Z with (Z.ones (Z.of_nat sz)) by (rewrite Z.ones_equiv; lia).
  destruct v as [|v].
  - rewrite Z.testbit_neg_r by lia. split; [done | lia].
  - rewrite Z.testbit_ones_nonneg by lia. rewrite Z.ltb_lt. lia.
Qed.

Lemma clear_loop_sub (sz : nat) (L : list nat) (valid : bool) (g : list ValueMask) (b : bool)
  (g' : list ValueMask) :
  clear_candidates_loop sz L valid g = Some (b, g') ->
  length g' = length g ∧
  ∀ i m', g' !! i = Some m' ->
    ∃ m, g !! i = Some m ∧ is_solved m' = is_solved m ∧ ∀ v, has m' v = true -> has m v = true.
Proof.
  revert valid g. induction L as [|x xs IH]; intros valid g H; simpl in H.
  - injection H as <- <-. split; [done |]. intros i m' Hi. exists m'. done.
  - destruct (clear_candidate sz g x) as [[ok g1]|] eqn:E; [| done].
    destruct (IH _ _ H) as [Hlen Hsub].
    unfold clear_candidate, cell_index_and_value in E.
    apply clear_value_spec in E as (m & Hm & -> & _).
    rewrite length_insert in Hlen. split; [done |].
    intros i m' Hi. destruct (Hsub i m' Hi) as (m1 & Hm1 & Hs1 & Hh1).
    destruct (decide (i = x / sz)) as [->|Hne].
    + rewrite list_lookup_insert_eq in Hm1 by (by eapply lookup_lt_Some).
      injection Hm1 as <-. exists m. split; [done |]. split; [done |].
      intros v Hv. apply Hh1 in Hv. rewrite has_without in Hv. by apply andb_prop in Hv as [? _].
    + rewrite list_lookup_insert_ne in Hm1 by done. eauto.
Qed.

Lemma clear_loop_has_candidate (sz : nat) (L : list nat) (valid : bool) (g : list ValueMask)
  (b : bool) (g' : list ValueMask) :
  0 < sz -> clear_candidates_loop sz L valid g = Some (b, g') ->
  ∀ x, x ∉ L -> has_candidate sz g' x = has_candidate sz g x.
Proof.
  intros Hsz. revert valid g. induction L as [|y ys IH]; intros valid g H x Hx; simpl in H.
  - by injection H as <- <-.
  - destruct (clear_candidate sz g y) as [[ok g1]|] eqn:E; [| done].
    rewrite (IH _ _ H) by (intros Hin; apply Hx; by right).
    destruct (clear_candidate_frame sz g y ok g1 Hsz E) as (_ & Hf & _).
    apply Hf. intros ->. apply Hx. by left.
Qed.

Lemma board_new_parts (sz : nat) (regions : list nat) (cs : list Constraint) (B : Board) :
  board_new sz regions cs = Some B ->
  ∃ hbc elims b,
    create_houses_by_cell sz (create_houses sz regions cs) = Some hbc ∧
    init_weak_links (mkBoardData sz (sz * sz) (sz * (sz * sz)) (from_all_values sz)
       (create_houses sz regions cs) hbc (replicate (sz * (sz * sz)) ∅) 0 cs)
      = Some (data B, elims) ∧
    clear_candidates sz (replicate (sz * sz) (from_all_values sz)) elims = Some (b, board B).
Proof.
  unfold board_new, board_data_new.
  destruct (create_houses_by_cell sz (create_houses sz regions cs)) as [hbc|] eqn:Eh;
    simpl; [| done].
  destruct (init_weak_links _) as [[d' elims]|] eqn:Ei; simpl; [| done].
  pose proof Ei as Hs. apply init_weak_links_steps, link_step_fields in Hs as (wl & t & ->).
  simpl. destruct (clear_candidates _ _ _) as [[b g']|] eqn:Ec; simpl; [| done].
  intros [= <-]. exists hbc, elims, b. done.
Qed.

Lemma link_steps_len (d d' : BoardData) :
  rtc link_step d d' -> length (weak_links d') = length (weak_links d).
Proof.
  induction 1 as [d|d1 d2 d3 (a & b & _ & Hs) _ IH]; [done |].
  rewrite IH. apply add_weak_link_spec in Hs as (s1 & s2 & _ & _ & ->). simpl.
  by rewrite !length_insert.
Qed.

Lemma link_steps_mono (d d' : BoardData) :
  rtc link_step d d' -> ∀ a b, linked (weak_links d) a b -> linked (weak_links d') a b.
Proof.
  induction 1 as [d|d1 d2 d3 (x & y & _ & Hs) _ IH]; [done |].
  intros a b Hab. apply IH. apply (proj2 (add_weak_link_linked _ _ _ _ Hs _ _)). by left.
Qed.

Lemma add_weak_links_mono (d : BoardData) (ps : list (nat * nat)) (d' : BoardData) :
  add_weak_links d ps = Some d' ->
  ∀ a b, linked (weak_links d) a b -> linked (weak_links d') a b.
Proof.
  revert d. induction ps as [|[x y] ps IH]; intros d H a b Hab; simpl in H.
  - by injection H as <-.
  - destruct (add_weak_link d x y) as [d1|] eqn:E; simpl in H; [| done].
    apply (IH d1 H). apply (proj2 (add_weak_link_linked _ _ _ _ E _ _)). by left.
Qed.

Lemma add_weak_links_linked (d : BoardData) (ps : list (nat * nat)) (d' : BoardData) :
  add_weak_links d ps = Some d' ->
  ∀ p, In p ps -> linked (weak_links d') p.1 p.2 ∧ linked (weak_links d') p.2 p.1.
Proof.
  revert d. induction ps as [|[x y] ps IH]; intros d H p Hp; simpl in H; [done |].
  destruct (add_weak_link d x y) as [d1|] eqn:E; simpl in H; [| done].
  destruct Hp as [<-|Hp]; [| by apply (IH d1)].
  simpl. split; apply (add_weak_links_mono _ _ _ H), (proj2 (add_weak_link_linked _ _ _ _ E _ _));
    naive_solver.
Qed.

Lemma add_house_links_linked (sz : nat) (d : BoardData) (hs : list House) (d' : BoardData) :
  add_house_links sz d hs = Some d' ->
  ∀ h p, In h hs -> In p (candidate_pairs sz (house_cells h)) ->
    linked (weak_links d') p.1 p.2 ∧ linked (weak_links d') p.2 p.1.
Proof.
  revert d. induction hs as [|h0 hs IH]; intros d H h p Hh Hp; simpl in H; [done |].
  destruct (add_weak_links d _) as [d1|] eqn:E; simpl in H; [| done].
  destruct Hh as [<-|Hh]; [| by apply (IH d1 H h)].
  pose proof (add_house_links_steps _ _ _ _ H) as Hs.
  destruct (add_weak_links_linked _ _ _ E p Hp). split; by apply (link_steps_mono _ _ Hs).
Qed.

Lemma sudoku_links_done_mono (sz : nat) (hbc : list (list House)) (d d' : BoardData) (x : nat) :
  rtc link_step d d' -> sudoku_links_done sz hbc (weak_links d) x ->
  sudoku_links_done sz hbc (weak_links d') x.
Proof.
  intros Hs [H1 H2]. pose proof (link_steps_mono _ _ Hs) as Hm. split.
  - intros v2 Hv. destruct (H1 v2 Hv). auto.
  - intros hs h p Hhs Hh Hp. destruct (H2 hs h p Hhs Hh Hp). auto.
Qed.

Lemma sudoku_links_of_done (d : BoardData) (x : nat) (d' : BoardData) :
  sudoku_links_of d x = Some d' -> sudoku_links_done (size d) (houses_by_cell d) (weak_links d') x.
Proof.
  intros H. pose proof (sudoku_links_of_steps _ _ _ H) as Hst.
  unfold sudoku_links_of, cell_index_and_value in H.
  destruct (add_weak_links d _) as [d1|] eqn:E; simpl in H; [| done].
  pose proof E as (wl & t & Hd1)%add_weak_links_fields.
  destruct (houses_by_cell d1 !! (x / size d)) as [hs|] eqn:Ehs; simpl in H; [| done].
  pose proof (add_house_links_steps _ _ _ _ H) as Hs2.
  rewrite Hd1 in Ehs. simpl in Ehs. split.
  - intros v2 Hv.
    destruct (add_weak_links_linked _ _ _ E (x, cu_candidate (size d) (x / size d) v2)) as [Ha Hb].
    { apply in_map_iff. exists v2. split; [done |]. apply in_seq. lia. }
    split; by apply (link_steps_mono _ _ Hs2).
  - intros hs' h p Hhs Hh Hp. rewrite Ehs in Hhs. injection Hhs as <-.
    rewrite Hd1 in H. by apply (add_house_links_linked _ _ _ _ H h).
Qed.

Lemma sudoku_links_loop_done (d : BoardData) (cands : list nat) (d' : BoardData) :
  sudoku_links_loop d cands = Some d' ->
  ∀ x, In x cands -> sudoku_links_done (size d) (houses_by_cell d) (weak_links d') x.
Proof.
  revert d. induction cands as [|y ys IH]; intros d H x Hx; simpl in H; [done |].
  destruct (sudoku_links_of d y) as [d1|] eqn:E; simpl in H; [| done].
  pose proof (sudoku_links_of_steps _ _ _ E) as Hs1.
  apply link_step_fields in Hs1 as (wl & t & Hd1).
  destruct Hx as [<-|Hx].
  - eapply sudoku_links_done_mono; [by eapply sudoku_links_loop_steps |].
    by apply sudoku_links_of_done.
  - pose proof (IH d1 H x Hx) as Hd. by rewrite Hd1 in Hd.
Qed.

Lemma cell_pairs_complete (l : list nat) (x y : nat) :
  In x l -> In y l -> x ≠ y -> In (x, y) (cell_pairs l) ∨ In (y, x) (cell_pairs l).
Proof.
  induction l as [|c l IH]; simpl; [done |].
  intros Hx Hy Hne.
  destruct Hx as [<-|Hx], Hy as [<-|Hy]; [done | | |].
  - left. apply in_or_app. left. apply in_map_iff. by exists y.
  - right. apply in_or_app. left. apply in_map_iff. by exists x.
  - destruct (IH Hx Hy Hne); [left | right]; apply in_or_app; by right.
Qed.

Lemma candidate_of_cell (sz c v : nat) :
  1 <= v <= sz -> cu_candidate sz c v / sz = c ∧ cu_candidate sz c v mod sz + 1 = v.
Proof.
  intros Hv. unfold cu_candidate. split.
  - symmetry. apply (Nat.div_unique _ _ _ (v - 1)); lia.
  - rewrite <- (Nat.mod_unique _ _ c (v - 1)); lia.
Qed.

Lemma board_new_sudoku_done (sz : nat) (regions : list nat) (cs : list Constraint) (B : Board) :
  board_new sz regions cs = Some B ->
  ∃ hbc, create_houses_by_cell sz (create_houses sz regions cs) = Some hbc ∧
    ∀ x, x < sz * (sz * sz) -> sudoku_links_done sz hbc (weak_links (data B)) x.
Proof.
  intros H. apply board_new_parts in H as (hbc & elims & b & Eh & Ei & _).
  exists hbc. split; [done |]. intros x Hx.
  pose proof Ei as Hst. apply init_weak_links_steps in Hst.
  unfold init_weak_links, init_sudoku_weak_links in Ei.
  destruct (sudoku_links_loop _ _) as [d1|] eqn:E; simpl in Ei; [| done].
  pose proof E as Hs1. apply sudoku_links_loop_steps in Hs1.
  assert (Hd := sudoku_links_loop_done _ _ _ E x ltac:(apply in_seq; simpl; lia)).
  simpl in Hd. eapply sudoku_links_done_mono; [| exact Hd].
  unfold init_constraint_weak_links in Ei. apply constraint_links_loop_spec in Ei as [Ei _].
  eapply add_weak_links_steps; [| exact Ei].
  intros p Hp. apply list_elem_of_In, list_elem_of_filter in Hp as [Hp _]. exact Hp.
Qed.

Lemma board_new_link_bounds (sz : nat) (regions : list nat) (cs : list Constraint) (B : Board) :
  board_new sz regions cs = Some B ->
  ∀ a b, linked (weak_links (data B)) a b -> a ≠ b ∧ a < sz * (sz * sz) ∧ b < sz * (sz * sz).
Proof.
  intros H a b Hab. pose proof (board_new_inv _ _ _ _ H) as (Hsym & Hself & _).
  apply board_new_parts in H as (hbc & elims & b0 & _ & Ei & _).
  apply init_weak_links_steps, link_steps_len in Ei. simpl in Ei. rewrite length_replicate in Ei.
  pose proof (Hsym _ _ Hab) as Hba. split; [intros ->; by apply (Hself b) |].
  destruct Hab as (s & Hs & _), Hba as (s' & Hs' & _).
  apply lookup_lt_Some in Hs, Hs'. lia.
Qed.

(** X12: a board built by [Board::new] records its size, its cell and
    candidate counts, the all-values mask, the houses of [create_houses] and
    their per-cell index, the constraints and a weak-link table with one set
    per candidate; its grid has one unsolved mask per cell, holding only
    values in [1..size]. *)
Theorem board_new_shape (sz : nat) (regions : list nat) (cs : list Constraint) (B : Board) :
  board_new sz regions cs = Some B ->
  size (data B) = sz ∧ num_cells (data B) = sz * sz ∧ num_candidates (data B) = sz * (sz * sz) ∧
  all_values_mask (data B) = from_all_values sz ∧ houses (data B) = create_houses sz regions cs ∧
  create_houses_by_cell sz (create_houses sz regions cs) = Some (houses_by_cell (data B)) ∧
  constraints (data B) = cs ∧
  length (weak_links (data B)) = sz * (sz * sz) ∧ length (board B) = sz * sz ∧
  ∀ i m, board B !! i = Some m -> is_solved m = false ∧ ∀ v, has m v = true -> 1 <= v <= sz.
Proof.
  intros H. apply board_new_parts in H as (hbc & elims & b & Eh & Ei & Ec).
  apply init_weak_links_steps in Ei. pose proof (link_steps_len _ _ Ei) as Hlen.
  apply link_step_fields in Ei as (wl & t & Hd). rewrite Hd in Hlen |- *. simpl in Hlen |- *.
  rewrite length_replicate in Hlen.
  apply clear_loop_sub in Ec as [Hl Hsub]. rewrite length_replicate in Hl.
  do 9 (split; [done |]).
  intros i m Hi. destruct (Hsub i m Hi) as (m0 & Hm0 & Hs & Hh).
  apply lookup_replicate in Hm0 as [-> _]. split; [done |].
  intros v Hv. by apply has_all_values, Hh.
Qed.

(** X13: in a board built by [Board::new], every weak link joins two distinct
    candidates below [num_candidates]. *)
Theorem board_new_link_range (sz : nat) (regions : list nat) (cs : list Constraint) (B : Board) :
  board_new sz regions cs = Some B ->
  ∀ a b, linked (weak_links (data B)) a b -> a ≠ b ∧ a < sz * (sz * sz) ∧ b < sz * (sz * sz).
Proof. apply board_new_link_bounds. Qed.

(** X14: in a board built by [Board::new], any two values of one cell are
    weakly linked, both ways. *)
Theorem board_new_cell_links (sz : nat) (regions : list nat) (cs : list Constraint) (B : Board)
  (c v1 v2 : nat) :
  board_new sz regions cs = Some B -> c < sz * sz -> 1 <= v1 -> v1 < v2 -> v2 <= sz ->
  linked (weak_links (data B)) (cu_candidate sz c v1) (cu_candidate sz c v2) ∧
  linked (weak_links (data B)) (cu_candidate sz c v2) (cu_candidate sz c v1).
Proof.
  intros H Hc H1 H12 H2. apply board_new_sudoku_done in H as (hbc & _ & Hdone).
  destruct (candidate_of_cell sz c v1) as [Hq Hr]; [lia |].
  destruct (Hdone (cu_candidate sz c v1)) as [Hv _].
  { unfold cu_candidate. nia. }
  rewrite Hq, Hr in Hv. apply Hv. lia.
Qed.

(** X15: in a board built by [Board::new], the same value in two distinct
    cells of a house is weakly linked, both ways. *)
Theorem board_new_house_links (sz : nat) (regions : list nat) (cs : list Constraint) (B : Board)
  (h : House) (c1 c2 v : nat) :
  board_new sz regions cs = Some B -> In h (houses (data B)) ->
  c1 ∈ house_cells h -> c2 ∈ house_cells h -> c1 ≠ c2 -> 1 <= v <= sz ->
  linked (weak_links (data B)) (cu_candidate sz c1 v) (cu_candidate sz c2 v) ∧
  linked (weak_links (data B)) (cu_candidate sz c2 v) (cu_candidate sz c1 v).
Proof.
  intros H Hh Hc1 Hc2 Hne Hv.
  pose proof H as Hs. apply board_new_parts in Hs as (hbc' & ? & ? & _ & Ei & _).
  apply init_weak_links_steps, link_step_fields in Ei as (wl & t & Hd).
  rewrite Hd in Hh. simpl in Hh.
  apply board_new_sudoku_done in H as (hbc & Eh & Hdone).
  destruct (create_houses_by_cell_correct sz (create_houses sz regions cs)) as [[Hr _] Hl].
  assert (c1 < sz * sz) as Hlt by (eapply Hr; [by eexists | exact Hh | exact Hc1]).
  destruct (Hl hbc Eh) as [_ Hi].
  destruct (candidate_of_cell sz c1 1) as [Hq _]; [lia |].
  destruct (Hdone (cu_candidate sz c1 1)) as [_ Hhouse]; [unfold cu_candidate; nia |].
  rewrite Hq in Hhouse.
  assert (Hin : In h (filter (λ h, c1 ∈ house_cells h) (create_houses sz regions cs))).
  { apply list_elem_of_In, list_elem_of_filter. split; [done |]. by apply list_elem_of_In. }
  apply list_elem_of_In in Hc1, Hc2.
  destruct (cell_pairs_complete _ _ _ Hc1 Hc2 Hne) as [Hp|Hp].
  - refine (Hhouse _ h (cu_candidate sz c1 v, cu_candidate sz c2 v) (Hi c1 Hlt) Hin _).
    apply in_flat_map. exists (c1, c2). split; [done |]. apply in_map_iff. exists v.
    split; [done |]. apply in_seq. lia.
  - refine (proj2 (and_comm _ _) (Hhouse _ h (cu_candidate sz c2 v, cu_candidate sz c1 v)
      (Hi c1 Hlt) Hin _)).
    apply in_flat_map. exists (c2, c1). split; [done |]. apply in_map_iff. exists v.
    split; [done |]. apply in_seq. lia.
Qed.

(** X16: the grid of a board built by [Board::new] has every candidate except
    those that some constraint pairs with itself. *)
Theorem board_new_initial_grid (sz : nat) (regions : list nat) (cs : list Constraint) (B : Board)
  (x : nat) :
  board_new sz regions cs = Some B -> x < sz * (sz * sz) ->
  has_candidate sz (board B) x =
    Some (negb (bool_decide (x ∈ map fst (filter (λ p, p.1 = p.2) (constraint_pairs sz cs))))).
Proof.
  intros H Hx. apply board_new_parts in H as (hbc & elims & b & _ & Ei & Ec).
  assert (Hsz : 0 < sz) by (destruct sz; lia).
  assert (elims = map fst (filter (λ p, p.1 = p.2) (constraint_pairs sz cs))) as ->.
  { pose proof Ei as Hst. apply init_weak_links_steps in Hst.
    unfold init_weak_links, init_sudoku_weak_links in Ei.
    destruct (sudoku_links_loop _ _) as [d1|] eqn:E; simpl in Ei; [| done].
    apply sudoku_links_loop_steps, link_step_fields in E as (wl & t & ->).
    unfold init_constraint_weak_links in Ei. apply constraint_links_loop_spec in Ei as [_ ->].
    done. }
  case_bool_decide as Hin.
  - apply clear_candidates_loop_absent in Ec as [_ Ha]. apply Ha. by apply list_elem_of_In.
  - unfold clear_candidates in Ec. rewrite (clear_loop_has_candidate _ _ _ _ _ _ Hsz Ec x Hin).
    unfold has_candidate, cell_index_and_value, cell.
    rewrite lookup_replicate_2 by (apply Nat.Div0.div_lt_upper_bound; lia). simpl.
    f_equal. apply has_all_values. pose proof (Nat.mod_upper_bound x sz). lia.
Qed.

Lemma btree_iter_in (s : gset nat) (x : nat) : x ∈ s -> In x (btree_iter s).
Proof.
  unfold btree_iter. intros Hx. apply list_elem_of_In.
  rewrite (merge_sort_Permutation Nat.le). by apply elem_of_elements.
Qed.

Lemma apply_weak_links_true (sz : nat) (es : list nat) (g g2 : list ValueMask) :
  apply_weak_links sz es g = Some (true, g2) -> performed_clears sz es g = es.
Proof.
  revert g. induction es as [|e es IH]; intros g H; simpl in H |- *; [done |].
  destruct (clear_candidate sz g e) as [[ok g1]|] eqn:E; [| done].
  destruct ok; [| done]. f_equal. by apply (IH g1).
Qed.

Lemma has_value_bit_other (m : ValueMask) (v w : nat) (b : bool) :
  has m v = true -> has m w = false -> has (mkValueMask (value_bit v) b) w = false.
Proof.
  unfold has. simpl. intros Hv Hw. destruct w as [|w].
  - apply Z.testbit_neg_r. lia.
  - rewrite value_bit_testbit by lia.
    destruct (Z.eqb_spec (Z.of_nat v - 1) (Z.of_nat (S w) - 1)); [| done].
    destruct (Nat.eqb_spec v 0) as [->|]; [done |].
    assert (v = S w) as -> by lia. congruence.
Qed.

(** X17: if every constraint's [enforce] keeps the solved cell and never gives
    back a cleared value, a [set_solved c v] that returns [true] found [v]
    as a candidate of an unsolved cell, leaves [c] solved to [v], removes
    every candidate weakly linked to [(c, v)], and keeps every absence. *)
Theorem set_solved_success (sz : nat) (regions : list nat) (cs : list Constraint)
  (B : Board) (g : list ValueMask) (c v : nat) (g' : list ValueMask) :
  board_new sz regions cs = Some B ->
  (∀ k, In k cs -> enforce_keeps k) ->
  set_solved (data B) g c v = Some (true, g') ->
  (∃ m, g !! c = Some m ∧ has m v = true ∧ is_solved m = false) ∧
  g' !! c = Some (mkValueMask (value_bit v) true) ∧
  (∀ y, linked (weak_links (data B)) (cu_candidate sz c v) y -> has_candidate sz g' y = Some false) ∧
  (∀ i w, absent g i w -> absent g' i w).
Proof.
  intros HB Hk H.
  pose proof (board_new_fields _ _ _ _ HB) as [Hsz Hcs].
  pose proof (board_new_inv _ _ _ _ HB) as (_ & Hself & _).
  unfold set_solved, cell in H.
  destruct (g !! c) as [m|] eqn:Hm; simpl in H; [| done].
  destruct (has m v) eqn:Hv; simpl in H; [| done].
  destruct (is_solved m) eqn:Hs; [done |]. rewrite Hsz, Hcs in H.
  destruct (weak_links (data B) !! cu_candidate sz c v) as [links|] eqn:El; simpl in H; [| done].
  change (solved (with_only m v)) with (mkValueMask (value_bit v) true) in H.
  destruct (apply_weak_links sz (btree_iter links) _) as [[ok g2]|] eqn:Ea; [| done].
  destruct ok; [| done].
  pose proof Ea as Hall%apply_weak_links_true.
  pose proof (apply_weak_links_absent _ _ _ _ _ Ea) as Habs.
  apply apply_weak_links_keeps with (c := c) (v := v) in Ea as [Hc2 Hin].
  - injection H as H.
    destruct (enforce_constraints_keeps cs c v g2 true g') as [Hc' Ha']; [done | done |].
    split; [by exists m |]. split; [congruence |]. split.
    + intros y (s & Hs' & Hy). rewrite El in Hs'. injection Hs' as <-.
      eapply has_candidate_preserved; [exact Ha' |]. apply Hin. rewrite Hall.
      by apply btree_iter_in.
    + intros i w Ha. apply Ha', Habs. destruct Ha as (m0 & Hm0 & Hw).
      destruct (decide (i = c)) as [->|Hne].
      * rewrite Hm in Hm0. injection Hm0 as <-.
        exists (mkValueMask (value_bit v) true). split.
        -- apply list_lookup_insert_eq. by eapply lookup_lt_Some.
        -- by eapply has_value_bit_other.
      * exists m0. by rewrite list_lookup_insert_ne.
  - apply list_lookup_insert_eq. by eapply lookup_lt_Some.
  - intros x Hx [Hxc Hxv]. apply (Hself x). exists links. split.
    + rewrite (decode_candidate sz x), Hxc, Hxv. done.
    + by apply btree_iter_elem.
Qed.

(** X18: mutations run on a deep clone leave the original board's masks and
    every existing [BoardData] unchanged; the clone points at a fresh copy
    of the original's [BoardData]. *)
Theorem deep_clone_isolated (st st1 st2 : Store) (i j : nat) (ops : list BoardOp) (rs : list bool) :
  deep_clone st i = Some (j, st1) ->
  run_ops st1 j ops = Some (rs, st2) ->
  boards st2 !! i = boards st !! i ∧
  ∃ g p d g', boards st !! i = Some (g, p) ∧ arcs st !! p = Some d ∧
    arcs st2 = arcs st ++ [d] ∧ boards st2 !! j = Some (g', length (arcs st)).
Proof.
  unfold deep_clone. destruct (boards st !! i) as [[g p]|] eqn:Hi; [| discriminate].
  destruct (arcs st !! p) as [d|] eqn:Hp; simpl; [| discriminate].
  intros [= <- <-] Hr.
  destruct (run_ops_frame _ _ _ _ _ Hr) as (Ha & Hk & Hq). simpl in *.
  assert (i < length (boards st)) by (by eapply lookup_lt_Some).
  split; [rewrite Hk by lia; by rewrite lookup_app_l |].
  destruct (Hq g (length (arcs st))) as [g' Hg'];
    [rewrite lookup_app_r, Nat.sub_diag by lia; done |].
  by exists g, p, d, g'.
Qed.



(** X20: [add_weak_link] panics when either candidate is past the table, and
    re-adding a link present in both directions changes nothing, the
    counter included. *)
Theorem add_weak_link_edges (d : BoardData) (a b : nat) :
  (length (weak_links d) <= a ∨ length (weak_links d) <= b -> add_weak_link d a b = None) ∧
  (linked (weak_links d) a b -> linked (weak_links d) b a -> add_weak_link d a b = Some d).
Proof.
  split.
  - intros Hr. unfold add_weak_link.
    destruct (weak_links d !! a) as [s1|] eqn:E1; simpl; [| done].
    destruct Hr as [Hr|Hr]; [apply lookup_lt_Some in E1; lia |].
    rewrite (proj2 (lookup_ge_None _ b)) by (rewrite length_insert; done). done.
  - intros (s1 & E1 & Hb) (s2 & E2 & Ha). unfold add_weak_link, bset_insert. rewrite E1. simpl.
    rewrite bool_decide_eq_false_2 by (intros Hn; by apply Hn).
    assert ({[b]} ∪ s1 = s1) as -> by set_solver.
    rewrite list_insert_id by done. rewrite E2. simpl.
    rewrite bool_decide_eq_false_2 by (intros Hn; by apply Hn).
    assert ({[a]} ∪ s2 = s2) as -> by set_solver.
    rewrite list_insert_id by done. by destruct d.
Qed.

(** X21: in a board built by [Board::new], every pair of distinct candidates
    a constraint supplies is weakly linked, both ways. *)
Theorem board_new_constraint_links (sz : nat) (regions : list nat) (cs : list Constraint)
  (B : Board) (k : Constraint) (a b : nat) :
  board_new sz regions cs = Some B -> In k cs -> In (a, b) (get_weak_links k sz) -> a ≠ b ->
  linked (weak_links (data B)) a b ∧ linked (weak_links (data B)) b a.
Proof.
  intros H Hk Hab Hne. apply board_new_parts in H as (hbc & elims & b0 & _ & Ei & _).
  unfold init_weak_links, init_sudoku_weak_links in Ei.
  destruct (sudoku_links_loop _ _) as [d1|] eqn:E; simpl in Ei; [| done].
  apply sudoku_links_loop_steps, link_step_fields in E as (wl & t & ->).
  unfold init_constraint_weak_links in Ei. apply constraint_links_loop_spec in Ei as [Ei _].
  simpl in Ei. apply (add_weak_links_linked _ _ _ Ei (a, b)).
  apply list_elem_of_In, list_elem_of_filter. split; [done |].
  apply list_elem_of_In. unfold constraint_pairs. apply in_concat.
  exists (get_weak_links k sz). split; [| done]. apply in_map_iff. by exists k.
Qed.

Lemma clear_value_idempotent_witness :
  clear_value [mkValueMask 3 false] 0 1 = Some (true, [mkValueMask 2 false]) ∧
  clear_value [mkValueMask 2 false] 0 1 = Some (true, [mkValueMask 2 false]).
Proof.
  assert (H : clear_value [mkValueMask 3 false] 0 1 = Some (true, [mkValueMask 2 false]))
    by (vm_compute; reflexivity).
  split; [exact H |]. exact (clear_value_idempotent _ 0 1 true _ H).
Defined.

Lemma clear_value_commute_witness :
  ∃ b1' b2' g1',
    clear_value [mkValueMask 3 false; mkValueMask 3 false] 1 2 = Some (b2', g1') ∧
    clear_value g1' 0 1 = Some (b1', [mkValueMask 2 false; mkValueMask 1 false]).
Proof.
  apply (clear_value_commute [mkValueMask 3 false; mkValueMask 3 false] 0 1 1 2 true true
           [mkValueMask 2 false; mkValueMask 3 false]); vm_compute; reflexivity.
Defined.

Lemma clear_value_absent_noop_witness :
  clear_value [mkValueMask 2 false] 0 1 =
    Some (negb (is_empty (mkValueMask 2 false)), [mkValueMask 2 false]).
Proof. apply (clear_value_absent_noop _ 0 1 (mkValueMask 2 false)); reflexivity. Defined.


Lemma clear_candidate_only_target_witness :
  has_candidate 2 [mkValueMask 2 false] 0 = Some false ∧
  (∀ y, y ≠ 0 -> has_candidate 2 [mkValueMask 2 false] y = has_candidate 2 [mkValueMask 3 false] y).
Proof.
  assert (H : clear_candidate 2 [mkValueMask 3 false] 0 = Some (true, [mkValueMask 2 false]))
    by (vm_compute; reflexivity).
  destruct (clear_candidate_only_target 2 _ 0 true _ ltac:(lia) H) as (H1 & H2 & _).
  split; [exact H1 | exact H2].
Defined.

Lemma clear_candidates_perm_witness :
  clear_candidates 2 [mkValueMask 3 false; mkValueMask 3 false] [0; 3] =
  clear_candidates 2 [mkValueMask 3 false; mkValueMask 3 false] [3; 0].
Proof. apply clear_candidates_perm. apply perm_swap. Defined.

Lemma house_for_region_spec_witness :
  house_for_region 2 [0; 0; 1; 1] !! 1 = Some [2; 3] <->
  [2; 3] ≠ [] ∧ [2; 3] = filter (λ c, [0; 0; 1; 1] !! c = Some 1) (seq 0 (2 * 2)).
Proof. apply (house_for_region_spec 2 [0; 0; 1; 1] 1 [2; 3]). reflexivity. Defined.

Lemma board_new_shape_witness :
  ∃ B, board_new 4 [] [] = Some B ∧
    length (weak_links (data B)) = 64 ∧ length (board B) = 16 ∧
    ∀ i m, board B !! i = Some m -> is_solved m = false ∧ ∀ v, has m v = true -> 1 <= v <= 4.
Proof.
  assert (Hf : option_map (λ _, tt) (board_new 4 [] []) = Some tt) by (vm_compute; reflexivity).
  destruct (board_new 4 [] []) as [B|] eqn:HB; [| discriminate].
  exists B. split; [reflexivity |].
  destruct (board_new_shape 4 [] [] B HB) as (_ & _ & _ & _ & _ & _ & _ & Hw & Hb & Hc).
  split; [exact Hw |]. split; [exact Hb | exact Hc].
Defined.

Lemma board_new_link_range_witness :
  ∃ B, board_new 4 [] [] = Some B ∧
    ∀ a b, linked (weak_links (data B)) a b -> a ≠ b ∧ a < 64 ∧ b < 64.
Proof.
  assert (Hf : option_map (λ _, tt) (board_new 4 [] []) = Some tt) by (vm_compute; reflexivity).
  destruct (board_new 4 [] []) as [B|] eqn:HB; [| discriminate].
  exists B. split; [reflexivity |]. exact (board_new_link_range 4 [] [] B HB).
Defined.

Lemma board_new_cell_links_witness :
  ∃ B, board_new 4 [] [] = Some B ∧
    linked (weak_links (data B)) (cu_candidate 4 5 1) (cu_candidate 4 5 3).
Proof.
  assert (Hf : option_map (λ _, tt) (board_new 4 [] []) = Some tt) by (vm_compute; reflexivity).
  destruct (board_new 4 [] []) as [B|] eqn:HB; [| discriminate].
  exists B. split; [reflexivity |].
  exact (proj1 (board_new_cell_links 4 [] [] B 5 1 3 HB ltac:(lia) ltac:(lia) ltac:(lia) ltac:(lia))).
Defined.

Lemma board_new_house_links_witness :
  ∃ B, board_new 4 [] [] = Some B ∧
    linked (weak_links (data B)) (cu_candidate 4 0 2) (cu_candidate 4 3 2).
Proof.
  assert (Hf : option_map (λ B, houses (data B)) (board_new 4 [] []) = Some (create_houses 4 [] []))
    by (vm_compute; reflexivity).
  destruct (board_new 4 [] []) as [B|] eqn:HB; [| discriminate].
  injection Hf as Hh.
  exists B. split; [reflexivity |].
  refine (proj1 (board_new_house_links 4 [] [] B (house_new ("Row " +:+ pretty 1) (seq 0 4))
                   0 3 2 HB _ _ _ ltac:(lia) ltac:(lia))).
  - rewrite Hh. left. reflexivity.
  - vm_compute. left.
  - vm_compute. right. right. right. left.
Defined.

Lemma board_new_initial_grid_witness :
  ∃ B, board_new 4 [] [cell0_eliminating_constraint] = Some B ∧
    has_candidate 4 (board B) 1 =
      Some (negb (bool_decide (1 ∈ map fst (filter (λ p, p.1 = p.2)
                                 (constraint_pairs 4 [cell0_eliminating_constraint]))))).
Proof.
  assert (Hf : option_map (λ _, tt) (board_new 4 [] [cell0_eliminating_constraint]) = Some tt)
    by (vm_compute; reflexivity).
  destruct (board_new 4 [] [cell0_eliminating_constraint]) as [B|] eqn:HB; [| discriminate].
  exists B. split; [reflexivity |].
  exact (board_new_initial_grid 4 [] [cell0_eliminating_constraint] B 1 HB ltac:(lia)).
Defined.

Lemma set_solved_success_witness :
  ∃ B g', board_new 4 [] [] = Some B ∧ set_solved (data B) (board B) 0 1 = Some (true, g') ∧
    g' !! 0 = Some (mkValueMask (value_bit 1) true) ∧
    ∀ y, linked (weak_links (data B)) (cu_candidate 4 0 1) y -> has_candidate 4 g' y = Some false.
Proof.
  assert (Hf : option_map (λ B, option_map fst (set_solved (data B) (board B) 0 1))
                 (board_new 4 [] []) = Some (Some true)) by (vm_compute; reflexivity).
  destruct (board_new 4 [] []) as [B|] eqn:HB; [| discriminate].
  cbv beta iota delta [option_map] in Hf.
  destruct (set_solved (data B) (board B) 0 1) as [[r g']|] eqn:HS; [| discriminate].
  injection Hf as ->.
  exists B, g'. split; [reflexivity |]. split; [exact HS |].
  destruct (set_solved_success 4 [] [] B (board B) 0 1 g' HB ltac:(intros k [])  HS)
    as (_ & H1 & H2 & _).
  split; [exact H1 | exact H2].
Defined.

Lemma deep_clone_isolated_witness :
  ∃ st1 st2 rs,
    deep_clone (mkStore [mkBoardData 1 1 1 (from_all_values 1) [] [[]] [∅] 0 []]
                        [([from_all_values 1], 0)]) 0 = Some (1, st1) ∧
    run_ops st1 1 [OpClearValue 0 1] = Some (rs, st2) ∧
    boards st2 !! 0 = Some ([from_all_values 1], 0) ∧
    arcs st2 = [mkBoardData 1 1 1 (from_all_values 1) [] [[]] [∅] 0 [];
                mkBoardData 1 1 1 (from_all_values 1) [] [[]] [∅] 0 []].
Proof.
  set (d := mkBoardData 1 1 1 (from_all_values 1) [] [[]] [∅] 0 []).
  set (st := mkStore [d] [([from_all_values 1], 0)]).
  assert (Hc : deep_clone st 0 = Some (1, mkStore [d; d] [([from_all_values 1], 0); ([from_all_values 1], 1)]))
    by reflexivity.
  destruct (run_ops (mkStore [d; d] [([from_all_values 1], 0); ([from_all_values 1], 1)]) 1
              [OpClearValue 0 1]) as [[rs st2]|] eqn:Hr; [| discriminate].
  exists (mkStore [d; d] [([from_all_values 1], 0); ([from_all_values 1], 1)]), st2, rs.
  split; [exact Hc |]. split; [exact Hr |].
  destruct (deep_clone_isolated st _ st2 0 1 _ rs Hc Hr) as (Hi & g & p & d' & g' & Hg & Hp & Ha & _).
  split; [exact Hi |]. simpl in Hg. injection Hg as <- <-. simpl in Hp. injection Hp as <-.
  exact Ha.
Defined.


Lemma board_new_constraint_links_witness :
  ∃ B, board_new 4 [] [mkConstraint (λ _, []) (λ _, [(0, 21)]) (λ g _ _, (LROther, g))] = Some B ∧
    linked (weak_links (data B)) 0 21 ∧ linked (weak_links (data B)) 21 0.
Proof.
  assert (Hf : option_map (λ _, tt)
                 (board_new 4 [] [mkConstraint (λ _, []) (λ _, [(0, 21)]) (λ g _ _, (LROther, g))])
               = Some tt) by (vm_compute; reflexivity).
  destruct (board_new 4 [] [mkConstraint (λ _, []) (λ _, [(0, 21)]) (λ g _ _, (LROther, g))])
    as [B|] eqn:HB; [| discriminate].
  exists B. split; [reflexivity |].
  apply (board_new_constraint_links 4 [] _ B
           (mkConstraint (λ _, []) (λ _, [(0, 21)]) (λ g _ _, (LROther, g))) 0 21 HB).
  - left. reflexivity.
  - left. reflexivity.
  - lia.
Defined.
